(** * Monodog authorization layer: sessions, OAuth state, permission cache

  A shallow embedding of the in-process credential and permission logic of
  the Monodog backend:

  - [services/github-oauth-service]  (request wrapper, role mapping,
    permission hierarchy),
  - [services/permission-service]    (permission cache and resolver),
  - [middleware/auth-middleware]     (session store),
  - [routes/auth-routes]             (CSRF state store and OAuth callback).

  Conventions.  Times are [Z] milliseconds as returned by [Date.now()];
  every clock reading a function makes is an explicit argument, in the
  order in which the source reads the clock.  The session and state stores
  are JavaScript [Map]s whose iteration order never influences a result, so
  they are [gmap string _]; the permission cache is scanned in insertion
  order by the eviction loop, so it is an insertion-ordered association
  list.  Calls to [AppLogger] do not influence stores or results and are
  left out, except where a value is observable only through the log. *)

From stdpp Require Import base strings list gmap fin_maps pretty.
From Stdlib Require Import ZArith Lia Ascii SpecFloat.

Local Open Scope Z_scope.

(** ** JavaScript runtime notions *)

Module Js.

(** Settled state of a promise; rejections carry the error message. *)
Inductive promise (A : Type) : Type :=
| Fulfilled (a : A)
| Rejected (message : string).
Arguments Fulfilled {A} a.
Arguments Rejected {A} message.

Definition is_rejected {A} (p : promise A) : bool :=
  match p with Fulfilled _ => false | Rejected _ => true end.

(** Value of a call expression: functions without a [return] statement
    (TypeScript [void]) evaluate to [undefined]. *)
Inductive value : Type :=
| Undefined
| Number (n : Z).

(** A string-valued property that may be missing ([undefined]). *)
Definition optstring : Type := option string.

(** Truthiness of a string: only the empty string is falsy. *)
Definition truthy (s : string) : bool :=
  match s with EmptyString => false | String _ _ => true end.

(** [s.charAt(i)]: the one-character string at index [i], or [''] when
    [i] is out of range. *)
Definition charAt (s : string) (i : Z) : string :=
  if bool_decide (i < 0) then ""
  else match String.get (Z.to_nat i) s with
       | Some c => String c EmptyString
       | None => ""
       end.

(** [`${n}`] for an integer [n] (user ids, counters): decimal digits. *)
Definition number_to_string (n : Z) : string := pretty n.

(** [arr.includes(x)] on an array of strings. *)
Definition includes (arr : list string) (x : string) : bool :=
  bool_decide (x ∈ arr).

End Js.

(** ** types/auth.ts *)

Module Types.

Record GitHubUser : Type := {
  id : Z;
  login : string;
  name : option string;
  avatar_url : string;
}.

Record AuthSession : Type := {
  accessToken : string;
  expiresIn : Z;
  expiresAt : Z;
  user : GitHubUser;
  scopes : list string;
}.

(** [permission] is declared as one of the five level names; at run time
    it is whatever the provider response carried, possibly [undefined]. *)
Record CachedPermission : Type := {
  userId : Z;
  username : string;
  owner : string;
  repo : string;
  permission : Js.optstring;
  role : string;
  cachedAt : Z;
  ttl : Z;
}.

Record OAuthState : Type := {
  createdAt : Z;
  redirectUrl : option string;
}.

End Types.

(** ** services/github-oauth-service *)

Module GithubOAuthService.
Import Js.

(** Result of [JSON.parse] on a response body, as far as this code looks
    at it: [null], or a value whose [permission] property is the given
    string or is missing. *)
Inductive json : Type :=
| JNull
| JObject (permission : optstring).

(** Body of an HTTP response, classified by what [JSON.parse] does on it. *)
Inductive body : Type :=
| BodyEmpty
| BodyMalformed
| BodyJson (v : json).

(** The event that settles the promise of [makeGitHubRequest]: a socket
    error, the 10 s timeout, or a complete response. *)
Inductive transport : Type :=
| SocketError (message : string)
| Timeout
| Responded (statusCode : option Z) (b : body).

Definition makeGitHubRequest (t : transport) : promise json :=
  match t with
  | Responded statusCode b =>
      if match statusCode with
         | Some c => bool_decide (c ≠ 0) && bool_decide (c >= 400)
         | None => false
         end
      then Rejected "GitHub API error"
      else match b with
           | BodyEmpty => Fulfilled (JObject None)
           | BodyJson v => Fulfilled v
           | BodyMalformed => Rejected "Failed to parse GitHub API response"
           end
  | SocketError message => Rejected message
  | Timeout => Rejected "GitHub API request timeout"
  end.

(** [getRepositoryPermission]: the whole body is inside [try]; reading
    [response.permission] for the debug message throws on [null], which
    the [catch] turns into [{ permission: 'none' }] like any rejection. *)
Definition getRepositoryPermission (t : transport) : promise json :=
  match makeGitHubRequest t with
  | Fulfilled response =>
      match response with
      | JObject _ => Fulfilled response
      | JNull => Fulfilled (JObject (Some "none"))
      end
  | Rejected _ => Fulfilled (JObject (Some "none"))
  end.

Definition mapPermissionToRole (permission : optstring) : string :=
  match permission with
  | Some "admin" => "Admin"
  | Some "maintain" => "Maintainer"
  | Some "write" => "Collaborator"
  | Some "read" => "Collaborator"
  | Some "none" => "Denied"
  | _ => "Denied"
  end.

Definition permissionHierarchy : list (string * Z) :=
  [("admin", 4); ("maintain", 3); ("write", 2); ("read", 1); ("none", 0)].

(** Property read on an object literal; [None] is [undefined].
    (Properties inherited from [Object.prototype] are not modelled.) *)
Fixpoint prop {A} (o : list (string * A)) (k : string) : option A :=
  match o with
  | [] => None
  | (k', v) :: o' => if bool_decide (k = k') then Some v else prop o' k
  end.

(** [a >= b] on numbers-or-undefined: any comparison with [undefined]
    is false. *)
Definition ge_js (a b : option Z) : bool :=
  match a, b with
  | Some x, Some y => bool_decide (x >= y)
  | _, _ => false
  end.

Definition hasPermission (userPermission requiredPermission : string) : bool :=
  ge_js (prop permissionHierarchy userPermission)
        (prop permissionHierarchy requiredPermission).

End GithubOAuthService.

(** ** Insertion-ordered [Map] *)

Module JsMap.

(** Entries in insertion order; keys are pairwise distinct ([wf]). *)
Abbreviation t V := (list (string * V)).

Section Ops.
Context {V : Type}.
#[local] Abbreviation t := (list (string * V)).

Definition wf (m : t) : Prop := NoDup m.*1.

Fixpoint get (m : t) (k : string) : option V :=
  match m with
  | [] => None
  | (k', v) :: m' => if bool_decide (k' = k) then Some v else get m' k
  end.

(** [m.set(k, v)]: an existing key keeps its position, a new key goes
    to the end. *)
Fixpoint set (m : t) (k : string) (v : V) : t :=
  match m with
  | [] => [(k, v)]
  | (k', v') :: m' =>
      if bool_decide (k' = k) then (k', v) :: m' else (k', v') :: set m' k v
  end.

Definition delete (m : t) (k : string) : t :=
  filter (λ e, e.1 ≠ k) m.

Definition size (m : t) : Z := Z.of_nat (length m).

Definition entries (m : t) : list (string * V) := m.
End Ops.
End JsMap.

(** ** services/permission-service *)

Module PermissionService.
Import Js Types.

Definition DEFAULT_TTL : Z := 5 * 60 * 1000.
Definition MAX_CACHE_SIZE : Z := 10000.

Definition getCacheKey (userId : Z) (owner repo : string) : string :=
  number_to_string userId +:+ ":" +:+ owner +:+ "/" +:+ repo.

Definition getCachedPermission (now : Z) (permissionCache : JsMap.t CachedPermission)
    (userId : Z) (owner repo : string)
  : option CachedPermission * JsMap.t CachedPermission :=
  let key := getCacheKey userId owner repo in
  match JsMap.get permissionCache key with
  | None => (None, permissionCache)
  | Some cached =>
      if bool_decide (now > cachedAt cached + ttl cached)
      then (None, JsMap.delete permissionCache key)
      else (Some cached, permissionCache)
  end.

(** One iteration of the eviction scan on the pair
    [(oldestKey, oldestTime)]. *)
Definition scan_step (acc : string * Z) (e : string * CachedPermission)
  : string * Z :=
  if bool_decide (cachedAt e.2 < acc.2) then (e.1, cachedAt e.2) else acc.

Definition scan_oldest (oldestTime : Z) (permissionCache : JsMap.t CachedPermission)
  : string * Z :=
  fold_left scan_step (JsMap.entries permissionCache) ("", oldestTime).

Definition evict_if_full (tScan : Z) (permissionCache : JsMap.t CachedPermission)
  : JsMap.t CachedPermission :=
  if bool_decide (JsMap.size permissionCache >= MAX_CACHE_SIZE) then
    let oldestKey := (scan_oldest tScan permissionCache).1 in
    if truthy oldestKey then JsMap.delete permissionCache oldestKey
    else permissionCache
  else permissionCache.

(** [tCached] is the clock reading stored in the new entry, [tScan] the
    one that initialises [oldestTime]; [ttl = None] is an omitted
    argument. *)
Definition setCachedPermission (tCached tScan : Z)
    (permissionCache : JsMap.t CachedPermission)
    (userId : Z) (username owner repo : string) (permission : optstring)
    (ttl : option Z)
  : CachedPermission * JsMap.t CachedPermission :=
  let role := GithubOAuthService.mapPermissionToRole permission in
  let cached := {|
    userId := userId; username := username; owner := owner; repo := repo;
    permission := permission; role := role;
    cachedAt := tCached; ttl := default DEFAULT_TTL ttl |} in
  let key := getCacheKey userId owner repo in
  (cached, JsMap.set (evict_if_full tScan permissionCache) key cached).

(** [provider] is what happens to the request issued by
    [getRepositoryPermission], should the resolver get there. *)
Definition getUserRepositoryPermission (tGet tCached tScan : Z)
    (provider : GithubOAuthService.transport)
    (permissionCache : JsMap.t CachedPermission)
    (accessToken : string) (userId : Z) (username owner repo : string)
    (forceRefresh : bool)
  : promise CachedPermission * JsMap.t CachedPermission :=
  let query (c : JsMap.t CachedPermission) :=
    let fallback :=
      setCachedPermission tCached tScan c userId username owner repo
        (Some "none") None in
    match GithubOAuthService.getRepositoryPermission provider with
    | Fulfilled (GithubOAuthService.JObject p) =>
        let r := setCachedPermission tCached tScan c userId username owner
                   repo p None in
        (Fulfilled r.1, r.2)
    | Fulfilled GithubOAuthService.JNull => (Fulfilled fallback.1, fallback.2)
    | Rejected _ => (Fulfilled fallback.1, fallback.2)
    end in
  if forceRefresh then query permissionCache
  else
    match getCachedPermission tGet permissionCache userId owner repo with
    | (Some cached, c) => (Fulfilled cached, c)
    | (None, c) => query c
    end.

Definition invalidatePermissionCache (permissionCache : JsMap.t CachedPermission)
    (userId : Z) (owner repo : string) : JsMap.t CachedPermission :=
  JsMap.delete permissionCache (getCacheKey userId owner repo).

Definition actionPermissionMap : list (string * list string) :=
  [("read", ["read"; "write"; "maintain"; "admin"]);
   ("write", ["write"; "maintain"; "admin"]);
   ("maintain", ["maintain"; "admin"]);
   ("admin", ["admin"])].

Definition canPerformAction (permission requiredAction : string) : bool :=
  let allowedPermissions :=
    default [] (GithubOAuthService.prop actionPermissionMap requiredAction) in
  includes allowedPermissions permission.

End PermissionService.

(** ** Numbers

    A JavaScript Number is an IEEE 754 binary64 value: 53 bits of
    precision, exponent of the infinities 1024.  Arithmetic on Numbers is
    the correctly rounded arithmetic of [SpecFloat], rounding to nearest,
    ties to even. *)

Module Float64.

Definition prec : Z := 53.
Definition emax : Z := 1024.

(** The Number nearest to [m * 2^e]; that number itself when [m] has at
    most 53 bits and [e] is in range. *)
Definition of_scaled (m e : Z) : spec_float :=
  binary_normalize prec emax m e false.

(** [x * y]. *)
Definition mul (x y : spec_float) : spec_float := SFmul prec emax x y.

(** [Math.floor(x)] as a string position ([ToIntegerOrInfinity]): the
    greatest integer not above a finite [x], 0 for NaN, and no position
    ([None]) for an infinity. *)
Definition floor (x : spec_float) : option Z :=
  match x with
  | S754_zero _ | S754_nan => Some 0
  | S754_infinity _ => None
  | S754_finite s m e => Some (Z.shiftl (cond_Zopp s (Z.pos m)) e)
  end.

End Float64.

(** ** middleware/auth-middleware *)

Module AuthMiddleware.
Import Js Types.

(** [Math.random()] yields a double in [[0, 1)], a multiple of [2^-53];
    a draw is represented by its numerator. *)
Definition unit_draw (m : Z) : Prop := 0 <= m < 2 ^ 53.

(** [Math.floor(x * n)] for the draw [x = m / 2^53] and the integer [n]:
    both operands are Numbers, and their product is rounded to a Number
    before the floor is taken. *)
Definition floor_scaled (m n : Z) : option Z :=
  Float64.floor
    (Float64.mul (Float64.of_scaled m (-53)) (Float64.of_scaled n 0)).

Definition chars : string :=
  "ABCDEFGHIJKLMNOPQRSTUVWXYZabcdefghijklmnopqrstuvwxyz0123456789".

(** The [for] loop of [generateSessionToken]: [fuel] iterations remain,
    [i] is the loop counter, [random i] the draw of iteration [i]. *)
Fixpoint token_loop (random : nat → Z) (fuel i : nat) (token : string)
  : string :=
  match fuel with
  | O => token
  | S fuel' =>
      token_loop random fuel' (S i)
        (token +:+ match floor_scaled (random i)
                           (Z.of_nat (String.length chars)) with
                   | Some position => charAt chars position
                   | None => ""
                   end)
  end.

(** [length = None] is an omitted argument. *)
Definition generateSessionToken (random : nat → Z) (length : option nat)
  : string :=
  token_loop random (default 32%nat length) 0 "".

(** The 24 h [setTimeout] that deletes the token later is a separate
    event and not part of this call. *)
Definition storeSession (random : nat → Z)
    (sessionStore : gmap string AuthSession) (session : AuthSession)
  : string * gmap string AuthSession :=
  let token := generateSessionToken random None in
  (token, <[token := session]> sessionStore).

Definition getSession (now : Z) (sessionStore : gmap string AuthSession)
    (token : string)
  : option AuthSession * gmap string AuthSession :=
  match sessionStore !! token with
  | None => (None, sessionStore)
  | Some session =>
      if bool_decide (now > expiresAt session)
      then (None, delete token sessionStore)
      else (Some session, sessionStore)
  end.

Definition invalidateSession (sessionStore : gmap string AuthSession)
    (token : string) : gmap string AuthSession :=
  delete token sessionStore.

(** One iteration of the sweep on [(sessionStore, clearedCount)]. *)
Definition sweep_step (now : Z) (acc : gmap string AuthSession * Z)
    (e : string * AuthSession) : gmap string AuthSession * Z :=
  if bool_decide (now > expiresAt e.2)
  then (delete e.1 acc.1, acc.2 + 1)
  else acc.

Record sweep_outcome : Type := {
  returned : value;
  sessions : gmap string AuthSession;
  debug_log : list string;
}.

(** [clearExpiredSessions(): void].  Deleting the entry being visited
    does not disturb the iteration, so the loop visits exactly the
    entries present at the start. *)
Definition clearExpiredSessions (now : Z)
    (sessionStore : gmap string AuthSession) : sweep_outcome :=
  let r := fold_left (sweep_step now) (map_to_list sessionStore)
             (sessionStore, 0) in
  {| returned := Undefined;
     sessions := r.1;
     debug_log :=
       if bool_decide (r.2 > 0)
       then ["Cleared " +:+ number_to_string r.2 +:+ " expired sessions"]
       else [] |}.

Definition getSessionStats (sessionStore : gmap string AuthSession) : Z * Z :=
  (Z.of_nat (size sessionStore), 10000).

End AuthMiddleware.

(** ** routes/auth-routes *)

Module AuthRoutes.
Import Js Types.

Definition STATE_EXPIRY : Z := 10 * 60 * 1000.

Definition validateState (now : Z) (stateStore : gmap string OAuthState)
    (state : string) : bool * gmap string OAuthState :=
  match stateStore !! state with
  | None => (false, stateStore)
  | Some entry =>
      if bool_decide (now - createdAt entry > STATE_EXPIRY)
      then (false, delete state stateStore)
      else (true, stateStore)
  end.

Definition getRedirectUrl (stateStore : gmap string OAuthState)
    (state : string) : option string :=
  stateStore !! state ≫= redirectUrl.

Definition clearState (stateStore : gmap string OAuthState)
    (state : string) : gmap string OAuthState :=
  delete state stateStore.

(** [x || d] on an optional string. *)
Definition or_else (x : option string) (d : string) : string :=
  match x with
  | Some s => if truthy s then s else d
  | None => d
  end.

Definition present (x : option string) : bool :=
  match x with Some s => truthy s | None => false end.

(** [GET /login]; [state] is the value produced by [generateState()].
    Returns the HTTP status and the state store. *)
Definition login (now : Z) (GITHUB_CLIENT_ID : option string)
    (state : string) (redirect : option string)
    (stateStore : gmap string OAuthState) : Z * gmap string OAuthState :=
  if present GITHUB_CLIENT_ID then
    (200, <[state := {| createdAt := now;
                        redirectUrl := Some (or_else redirect "/") |}]> stateStore)
  else (500, stateStore).

Record callback_query : Type := {
  code : option string;
  state : option string;
  error : option string;
  error_description : option string;
}.

(** Access-token response as far as the handler reads it. *)
Record token_response : Type := {
  access_token : string;
  scope : optstring;
}.

(** [s.split(sep)] for a one-character separator. *)
Fixpoint split (sep : ascii) (s : string) : list string :=
  match s with
  | EmptyString => [""]
  | String c s' =>
      if bool_decide (c = sep) then "" :: split sep s'
      else match split sep s' with
           | w :: ws => String c w :: ws
           | [] => [String c ""]
           end
  end.

Record callback_outcome : Type := {
  status : Z;
  states : gmap string OAuthState;
  sessions : gmap string AuthSession;
  sessionToken : option string;
}.

(** [GET /callback].  [exchange] and [identity] are the settled results
    of [exchangeCodeForToken] and [getAuthenticatedUser]; [tValidate] and
    [tSession] the two clock readings. *)
Definition callback (tValidate tSession : Z) (random : nat → Z)
    (GITHUB_CLIENT_SECRET : option string)
    (exchange : promise token_response) (identity : promise GitHubUser)
    (q : callback_query)
    (stateStore : gmap string OAuthState)
    (sessionStore : gmap string AuthSession) : callback_outcome :=
  let reply (st : Z) (ss : gmap string OAuthState) :=
    {| status := st; states := ss; sessions := sessionStore;
       sessionToken := None |} in
  if present (error q) then reply 400 stateStore
  else if negb (present (code q)) || negb (present (state q))
  then reply 400 stateStore
  else
    let st := default "" (state q) in
    match validateState tValidate stateStore st with
    | (false, ss) => reply 400 ss
    | (true, ss) =>
        if negb (present GITHUB_CLIENT_SECRET) then reply 500 ss
        else
          match exchange with
          | Rejected _ => reply 500 ss
          | Fulfilled tokenResponse =>
              match identity with
              | Rejected _ => reply 500 ss
              | Fulfilled user =>
                  match scope tokenResponse with
                  | None => reply 500 ss
                  | Some sc =>
                      let session := {|
                        accessToken := access_token tokenResponse;
                        expiresIn := 3600;
                        expiresAt := tSession + 24 * 60 * 60 * 1000;
                        user := user;
                        scopes := split ","%char sc |} in
                      let stored :=
                        AuthMiddleware.storeSession random sessionStore session in
                      {| status := 200;
                         states := clearState ss st;
                         sessions := stored.2;
                         sessionToken := Some stored.1 |}
                  end
              end
          end
    end.

End AuthRoutes.

(** ** More string operations of the runtime *)

Module JsString.

(** [s.startsWith(p)]. *)
Fixpoint startsWith (s p : string) : bool :=
  match p, s with
  | EmptyString, _ => true
  | String _ _, EmptyString => false
  | String a p', String b s' => bool_decide (a = b) && startsWith s' p'
  end.

Fixpoint drop (n : nat) (s : string) : string :=
  match n, s with
  | O, _ => s
  | S _, EmptyString => EmptyString
  | S n', String _ s' => drop n' s'
  end.

(** [s.replace(pat, '')] for a non-empty string pattern: the first
    occurrence of [pat] is cut out, a string without [pat] is returned
    as it is. *)
Fixpoint remove_first (pat s : string) : string :=
  if startsWith s pat then drop (String.length pat) s
  else match s with
       | EmptyString => EmptyString
       | String c s' => String c (remove_first pat s')
       end.

(** [a || b] on strings that may be [undefined]. *)
Definition or_js (a b : Js.optstring) : Js.optstring :=
  match a with
  | Some s => if Js.truthy s then Some s else b
  | None => b
  end.

(** [!x] on a string that may be [undefined]. *)
Definition falsy (x : Js.optstring) : bool :=
  match x with Some s => negb (Js.truthy s) | None => true end.

End JsString.

(** ** services/permission-service, remaining operations *)

Module PermissionCacheOps.
Import Js Types PermissionService.

(** One iteration of the periodic clean-up on
    [(permissionCache, cleanedCount)]. *)
Definition cleanup_step (now : Z) (acc : JsMap.t CachedPermission * Z)
    (kv : string * CachedPermission) : JsMap.t CachedPermission * Z :=
  if bool_decide (now > cachedAt kv.2 + ttl kv.2)
  then (JsMap.delete acc.1 kv.1, acc.2 + 1)
  else acc.

(** The callback that [startCacheCleanup] installs with [setInterval]:
    the cache after one run, and the count it logs. *)
Definition cacheCleanup (now : Z) (permissionCache : JsMap.t CachedPermission)
  : JsMap.t CachedPermission * Z :=
  fold_left (cleanup_step now) (JsMap.entries permissionCache)
    (permissionCache, 0).

Definition invalidate_step (userId : Z) (acc : JsMap.t CachedPermission * Z)
    (key : string) : JsMap.t CachedPermission * Z :=
  if JsString.startsWith key (number_to_string userId +:+ ":")
  then (JsMap.delete acc.1 key, acc.2 + 1)
  else acc.

(** [invalidateUserCache]: the cache afterwards, and [invalidatedCount]
    (which is only logged). *)
Definition invalidateUserCache (permissionCache : JsMap.t CachedPermission)
    (userId : Z) : JsMap.t CachedPermission * Z :=
  fold_left (invalidate_step userId) permissionCache.*1 (permissionCache, 0).

End PermissionCacheOps.

(** ** services/github-oauth-service, remaining calls *)

Module GithubOAuthCalls.
Import Js Types.

(** [validateToken]: the identity request settled as [identity]. *)
Definition validateToken (identity : promise GitHubUser) : bool :=
  match identity with
  | Fulfilled _ => true
  | Rejected _ => false
  end.

Record email_entry : Type := {
  email : string;
  primary : bool;
  verified : bool;
}.

(** [emails.find(e => e.primary && e.verified)]. *)
Fixpoint find_primary (emails : list email_entry) : option email_entry :=
  match emails with
  | [] => None
  | e :: emails' =>
      if primary e && verified e then Some e else find_primary emails'
  end.

(** [getUserEmail]: the e-mail request settled as [emails]; the result
    [None] is [null]. *)
Definition getUserEmail (emails : promise (list email_entry)) : optstring :=
  match emails with
  | Fulfilled l =>
      match find_primary l with
      | Some e => if truthy (email e) then Some (email e) else None
      | None => None
      end
  | Rejected _ => None
  end.

End GithubOAuthCalls.

(** ** middleware/auth-middleware, request handling *)

Module AuthHttp.
Import Js Types AuthMiddleware.

(** The credential-carrying parts of a request: the [Authorization]
    header and the [auth-token] cookie. *)
Record request : Type := {
  authorization : optstring;
  auth_cookie : optstring;
}.

(** [req.headers.authorization?.replace('Bearer ', '')
     || req.cookies?.['auth-token']]. *)
Definition requestToken (req : request) : optstring :=
  JsString.or_js (JsString.remove_first "Bearer " <$> authorization req)
    (auth_cookie req).

(** What a middleware does with the request: hand it on, with the
    session attached, or answer with a status. *)
Inductive verdict : Type :=
| Next (session : AuthSession)
| Reply (status : Z).

Definition authenticationMiddleware (now : Z)
    (sessionStore : gmap string AuthSession) (req : request)
  : verdict * gmap string AuthSession :=
  let token := requestToken req in
  if JsString.falsy token then (Reply 401, sessionStore)
  else
    match getSession now sessionStore (default "" token) with
    | (None, sessionStore') => (Reply 401, sessionStore')
    | (Some session, sessionStore') => (Next session, sessionStore')
    end.

Inductive gate : Type :=
| Pass
| Refuse (status : Z).

(** [repositoryPermissionMiddleware(requiredPermission)]: [session] is
    [req.session], [permission] the level in [req.permission], if one was
    attached. *)
Definition repositoryPermissionMiddleware (requiredPermission : string)
    (session : option AuthSession) (permission : option string) : gate :=
  match session with
  | None => Refuse 401
  | Some _ =>
      match permission with
      | None => Refuse 403
      | Some p =>
          let userLevel :=
            default 0 (GithubOAuthService.prop
                         GithubOAuthService.permissionHierarchy p) in
          let requiredLevel :=
            default 0 (GithubOAuthService.prop
                         GithubOAuthService.permissionHierarchy
                         requiredPermission) in
          if bool_decide (userLevel < requiredLevel) then Refuse 403 else Pass
      end
  end.

End AuthHttp.

(** ** routes/auth-routes, session endpoints *)

Module SessionRoutes.
Import Js Types AuthMiddleware AuthHttp.

Record reply : Type := {
  status : Z;
  sessions : gmap string AuthSession;
  sessionToken : option string;
}.

(** The handler's own reading of the token, followed by
    [invalidateSession] when there is one. *)
Definition invalidate_request_token (sessionStore : gmap string AuthSession)
    (req : request) : gmap string AuthSession :=
  let token := requestToken req in
  if JsString.falsy token then sessionStore
  else invalidateSession sessionStore (default "" token).

(** [POST /logout], behind [authenticationMiddleware]. *)
Definition logout (now : Z) (sessionStore : gmap string AuthSession)
    (req : request) : reply :=
  match authenticationMiddleware now sessionStore req with
  | (Reply st, sessionStore') =>
      {| status := st; sessions := sessionStore'; sessionToken := None |}
  | (Next _, sessionStore') =>
      {| status := 200;
         sessions := invalidate_request_token sessionStore' req;
         sessionToken := None |}
  end.

(** [POST /validate]; [identity] is the settled identity request that
    [validateToken] makes with the session's access token. *)
Definition validate (now : Z) (identity : promise GitHubUser)
    (sessionStore : gmap string AuthSession) (req : request) : reply :=
  match authenticationMiddleware now sessionStore req with
  | (Reply st, sessionStore') =>
      {| status := st; sessions := sessionStore'; sessionToken := None |}
  | (Next _, sessionStore') =>
      if GithubOAuthCalls.validateToken identity then
        {| status := 200; sessions := sessionStore'; sessionToken := None |}
      else
        {| status := 401;
           sessions := invalidate_request_token sessionStore' req;
           sessionToken := None |}
  end.

(** [POST /refresh]; [tNew] is the clock reading that dates the new
    session. *)
Definition refresh (now tNew : Z) (random : nat → Z)
    (identity : promise GitHubUser)
    (sessionStore : gmap string AuthSession) (req : request) : reply :=
  match authenticationMiddleware now sessionStore req with
  | (Reply st, sessionStore') =>
      {| status := st; sessions := sessionStore'; sessionToken := None |}
  | (Next session, sessionStore') =>
      if GithubOAuthCalls.validateToken identity then
        let newSession := {|
          accessToken := accessToken session;
          expiresIn := expiresIn session;
          expiresAt := tNew + 24 * 60 * 60 * 1000;
          user := user session;
          scopes := scopes session |} in
        let stored := storeSession random sessionStore' newSession in
        {| status := 200;
           sessions := invalidate_request_token stored.2 req;
           sessionToken := Some stored.1 |}
      else
        {| status := 401; sessions := sessionStore'; sessionToken := None |}
  end.

End SessionRoutes.

(** ** routes/permission-routes *)

Module PermissionRoutes.
Import Js Types PermissionService.

Record PermissionCheckResponse : Type := {
  r_permission : optstring;
  r_role : string;
  canAdmin : bool;
  canMaintain : bool;
  canWrite : bool;
  canRead : bool;
  denied : bool;
}.

(** [canPerformAction] applied to a cached permission, which may be
    [undefined]: no allow-list includes [undefined]. *)
Definition can (permission : optstring) (requiredAction : string) : bool :=
  match permission with
  | Some p => canPerformAction p requiredAction
  | None => false
  end.

Definition check_response (cachedPermission : CachedPermission)
  : PermissionCheckResponse :=
  {| r_permission := permission cachedPermission;
     r_role := role cachedPermission;
     canAdmin := bool_decide (permission cachedPermission = Some "admin");
     canMaintain := can (permission cachedPermission) "maintain";
     canWrite := can (permission cachedPermission) "write";
     canRead := can (permission cachedPermission) "read";
     denied := bool_decide (permission cachedPermission = Some "none") |}.

(** [GET /:owner/:repo] once [authenticationMiddleware] has attached
    [session]; [refresh] is the query parameter of that name.  Returns the
    status, the body of a 200 answer, and the cache. *)
Definition getPermission (tGet tCached tScan : Z)
    (provider : GithubOAuthService.transport)
    (permissionCache : JsMap.t CachedPermission) (session : AuthSession)
    (owner repo : string) (refresh : optstring)
  : Z * option PermissionCheckResponse * JsMap.t CachedPermission :=
  let forceRefresh := bool_decide (refresh = Some "true") in
  if negb (truthy owner) || negb (truthy repo)
  then (400, None, permissionCache)
  else
    match getUserRepositoryPermission tGet tCached tScan provider
            permissionCache (accessToken session) (id (user session))
            (login (user session)) owner repo forceRefresh with
    | (Fulfilled cachedPermission, c) =>
        (200, Some (check_response cachedPermission), c)
    | (Rejected _, c) => (500, None, c)
    end.

(** [POST /:owner/:repo/can-action]; [action] is the body field.  Returns
    the status, the [can] field of a 200 answer, and the cache. *)
Definition canAction (tGet tCached tScan : Z)
    (provider : GithubOAuthService.transport)
    (permissionCache : JsMap.t CachedPermission) (session : AuthSession)
    (owner repo : string) (action : optstring)
  : Z * option bool * JsMap.t CachedPermission :=
  if negb (truthy owner) || negb (truthy repo)
  then (400, None, permissionCache)
  else if JsString.falsy action
          || negb (includes ["read"; "write"; "maintain"; "admin"]
                     (default "" action))
  then (400, None, permissionCache)
  else
    match getUserRepositoryPermission tGet tCached tScan provider
            permissionCache (accessToken session) (id (user session))
            (login (user session)) owner repo false with
    | (Fulfilled cachedPermission, c) =>
        (200, Some (can (permission cachedPermission) (default "" action)), c)
    | (Rejected _, c) => (500, None, c)
    end.

(** [POST /:owner/:repo/invalidate]. *)
Definition invalidate (permissionCache : JsMap.t CachedPermission)
    (session : AuthSession) (owner repo : string)
  : Z * JsMap.t CachedPermission :=
  if negb (truthy owner) || negb (truthy repo)
  then (400, permissionCache)
  else (200, invalidatePermissionCache permissionCache (id (user session))
               owner repo).

End PermissionRoutes.

(** ** services/changeset-service, version arithmetic *)

Module ChangesetService.
Import Js.

(** Numbers as [parseInt] produces them: an integer, or [NaN] ([None]).
    Integers are exact, as they are in the source below [2^53]. *)
Definition number : Type := option Z.

(** The ASCII characters [parseInt] skips as leading white space (tab,
    line feed, vertical tab, form feed, carriage return, space); strings
    here are byte strings, so white space outside ASCII is not
    represented. *)
Definition is_space (c : ascii) : bool :=
  let n := Z.of_nat (nat_of_ascii c) in
  bool_decide (9 <= n <= 13) || bool_decide (n = 32).

Definition digit_value (c : ascii) : option Z :=
  let n := Z.of_nat (nat_of_ascii c) in
  if bool_decide (48 <= n <= 57) then Some (n - 48) else None.

Fixpoint skip_space (s : string) : string :=
  match s with
  | String c s' => if is_space c then skip_space s' else s
  | EmptyString => s
  end.

(** The value of the longest run of decimal digits at the start of [s],
    continuing from [acc]. *)
Fixpoint digits (acc : Z) (s : string) : Z :=
  match s with
  | String c s' =>
      match digit_value c with
      | Some d => digits (10 * acc + d) s'
      | None => acc
      end
  | EmptyString => acc
  end.

(** A run of digits at the start of [s], if there is at least one. *)
Definition leading_digits (s : string) : number :=
  match s with
  | String c s' =>
      match digit_value c with
      | Some d => Some (digits d s')
      | None => None
      end
  | EmptyString => None
  end.

(** [parseInt(s, 10)]. *)
Definition parseInt (s : string) : number :=
  match skip_space s with
  | String "-" s' => Z.opp <$> leading_digits s'
  | String "+" s' => leading_digits s'
  | s' => leading_digits s'
  end.

(** [`${n}`]. *)
Definition show (n : number) : string :=
  match n with
  | Some z => number_to_string z
  | None => "NaN"
  end.

(** [n + 1]. *)
Definition succ (n : number) : number := Z.succ <$> n.

(** [calculateVersion]: [major] is the first part, [minor] and [patch]
    default to 0 when the version has no second or third part (a part
    that is present but not a number stays [NaN]). *)
Definition calculateVersion (currentVersion bumpType : string) : string :=
  let parts := parseInt <$> AuthRoutes.split "." currentVersion in
  let major := default None (parts !! 0%nat) in
  let minor := default (Some 0) (parts !! 1%nat) in
  let patch := default (Some 0) (parts !! 2%nat) in
  match bumpType with
  | "major" => show (succ major) +:+ ".0.0"
  | "minor" => show major +:+ "." +:+ show (succ minor) +:+ ".0"
  | _ => show major +:+ "." +:+ show minor +:+ "." +:+ show (succ patch)
  end.

End ChangesetService.

(** ** The permission hierarchy as the specification words it *)

Module Hierarchy.

Inductive level : Type := none | read | write | maintain | admin.
Inductive action : Type := do_read | do_write | do_maintain | do_admin.

Definition level_name (l : level) : string :=
  match l with
  | none => "none" | read => "read" | write => "write"
  | maintain => "maintain" | admin => "admin"
  end.

Definition action_name (a : action) : string :=
  match a with
  | do_read => "read" | do_write => "write"
  | do_maintain => "maintain" | do_admin => "admin"
  end.

Definition level_rank (l : level) : Z :=
  match l with
  | none => 0 | read => 1 | write => 2 | maintain => 3 | admin => 4
  end.

Definition action_rank (a : action) : Z :=
  match a with
  | do_read => 1 | do_write => 2 | do_maintain => 3 | do_admin => 4
  end.

End Hierarchy.


(** ** Provider failures as the specification words them *)

Module ProviderFailure.
Import GithubOAuthService.



End ProviderFailure.

(** ** Token alphabet as the specification words it *)

Module Alphabet.

(** ASCII uppercase letter, lowercase letter, or digit. *)
Definition is_alnum (c : ascii) : bool :=
  let n := Z.of_nat (nat_of_ascii c) in
  (bool_decide (65 <= n <= 90) || bool_decide (97 <= n <= 122)
   || bool_decide (48 <= n <= 57))%bool.

Definition alphanumeric (s : string) : Prop :=
  Forall (λ c, is_alnum c = true) (String.list_ascii_of_string s).

End Alphabet.

(** ** Auxiliary notions used in statements and proofs *)

Module Aux.
Import Types.

(** The entries of [l] whose session has expired at [now]. *)
Definition expired_in (now : Z) (l : list (string * AuthSession))
  : list (string * AuthSession) :=
  filter (λ e, now > expiresAt e.2) l.

(** Invariant of the permission cache: keys are pairwise distinct and
    none is the empty string. *)
Definition cache_inv (c : JsMap.t CachedPermission) : Prop :=
  JsMap.wf c ∧ ∀ k, k ∈ c.*1 → Js.truthy k = true.

End Aux.

(** ** Concrete stores used in examples *)

Module Examples.
Import Types.

Definition alice : GitHubUser :=
  {| id := 42; login := "alice"; name := None; avatar_url := "" |}.

Definition session_until (t : Z) : AuthSession :=
  {| accessToken := "gho_alice"; expiresIn := 3600; expiresAt := t;
     user := alice; scopes := ["repo"] |}.

(** One session that expired at 50 and one that lives until 500. *)
Definition two_sessions : gmap string AuthSession :=
  <["tokA" := session_until 50]> (<["tokB" := session_until 500]> ∅).

(** The state store after [GET /login] issued the nonce ["s1"] at time 0. *)
Definition one_state : gmap string OAuthState :=
  (AuthRoutes.login 0 (Some "Iv1.client") "s1" None ∅).2.

Definition entry_at (i t : Z) : string * CachedPermission :=
  (PermissionService.getCacheKey i "acme" "widgets",
   {| userId := i; username := "user"; owner := "acme"; repo := "widgets";
      permission := Some "read"; role := "Collaborator";
      cachedAt := t; ttl := PermissionService.DEFAULT_TTL |}).

(** [n] entries for users [0 .. n-1]; user [i] was cached at [stamp i]. *)
Definition cache_of (n : Z) (stamp : Z → Z) : JsMap.t CachedPermission :=
  (λ i, entry_at i (stamp i)) <$> seqZ 0 n.

End Examples.

(** ** Further notions used in statements *)

Module CacheAux.
Import Types PermissionService.

(** [c] does not occur in [s]. *)
Definition lacks (c : ascii) (s : string) : Prop :=
  c ∉ String.list_ascii_of_string s.

(** Every entry sits under the key of its own user, owner and repository,
    carries the role derived from its permission, and has an owner
    without a slash. *)
Definition filed (c : JsMap.t CachedPermission) : Prop :=
  ∀ k e, (k, e) ∈ c →
    k = getCacheKey (userId e) (owner e) (repo e)
    ∧ role e = GithubOAuthService.mapPermissionToRole (permission e)
    ∧ lacks "/" (owner e).

(** The invariant of the permission cache as a whole. *)
Definition cache_ok (c : JsMap.t CachedPermission) : Prop :=
  Aux.cache_inv c ∧ filed c.

End CacheAux.

Module VersionAux.

(** [rest] is empty or begins with a character that is not a decimal
    digit, so that reading a number stops in front of it. *)
Definition stops (rest : string) : Prop :=
  match rest with
  | String c _ => ChangesetService.digit_value c = None
  | EmptyString => True
  end.

End VersionAux.

(** ** Invariant of the mantissa shift used in rounding *)

Module FloatAux.

(** After [j] one-bit right shifts of the mantissa [P]: the record holds
    [P] without its low [j] bits, and its rounding bit is set only when
    those low bits make up at least half a unit. *)
Definition shr_inv (P j : Z) (mrs : shr_record) : Prop :=
  0 <= j ∧ shr_m mrs = P `div` 2 ^ j
  ∧ (shr_r mrs = true → 2 ^ j <= 2 * (P `mod` 2 ^ j)).

End FloatAux.
(** * Properties *)

(** ** Insertion-ordered maps *)

Section JsMapFacts.
Context {V : Type}.
Implicit Types (m : JsMap.t V) (k : string) (v : V).

Lemma JsMap_get_None m k : JsMap.get m k = None ↔ k ∉ m.*1.
Proof.
  induction m as [|[k' v'] m IH]; simpl.
  - split; [intros _; apply not_elem_of_nil | done].
  - case_bool_decide as Hk.
    + split; [done | intros []; subst; left].
    + rewrite IH, not_elem_of_cons.
      split; [intros ?; split; [congruence | done] | by intros [_ ?]].
Qed.

Lemma JsMap_get_Some_elem m k v : JsMap.get m k = Some v → (k, v) ∈ m.
Proof.
  induction m as [|[k' v'] m IH]; simpl; [done |].
  case_bool_decide as Hk.
  - intros [= <-]. subst k'. left.
  - intros H. right. auto.
Qed.

Lemma JsMap_get_set_eq m k v : JsMap.get (JsMap.set m k v) k = Some v.
Proof.
  induction m as [|[k' v'] m IH]; simpl.
  - by rewrite bool_decide_eq_true_2.
  - case_bool_decide as Hk; simpl.
    + by rewrite bool_decide_eq_true_2.
    + by rewrite bool_decide_eq_false_2.
Qed.

Lemma JsMap_set_new m k v :
  JsMap.get m k = None → JsMap.set m k v = m ++ [(k, v)].
Proof.
  induction m as [|[k' v'] m IH]; simpl; [done |].
  case_bool_decide as Hk; [done |]. intros H. by rewrite IH.
Qed.

Lemma JsMap_delete_absent m k :
  JsMap.get m k = None → JsMap.delete m k = m.
Proof.
  rewrite JsMap_get_None. unfold JsMap.delete.
  induction m as [|[k' v'] m IH]; [done |].
  rewrite fmap_cons, not_elem_of_cons. intros [Hne Hnin].
  rewrite filter_cons_True by (cbn in *; congruence).
  by rewrite IH.
Qed.

Lemma JsMap_get_delete_eq m k : JsMap.get (JsMap.delete m k) k = None.
Proof.
  apply JsMap_get_None. unfold JsMap.delete.
  intros ([k' v'] & -> & Hin)%list_elem_of_fmap.
  apply list_elem_of_filter in Hin as [Hne _]. by apply Hne.
Qed.

Lemma JsMap_get_delete_ne m k k' :
  k' ≠ k → JsMap.get (JsMap.delete m k) k' = JsMap.get m k'.
Proof.
  intros Hne. unfold JsMap.delete.
  induction m as [|[k1 v1] m IH]; [done |].
  destruct (decide (k1 = k)) as [->|Hk].
  - rewrite filter_cons_False by (simpl; tauto). simpl.
    by rewrite bool_decide_eq_false_2 by congruence.
  - rewrite filter_cons_True by done. simpl. by rewrite IH.
Qed.

Lemma JsMap_delete_idemp m k :
  JsMap.delete (JsMap.delete m k) k = JsMap.delete m k.
Proof. apply JsMap_delete_absent, JsMap_get_delete_eq. Qed.

Lemma JsMap_size_app m k v :
  JsMap.size (m ++ [(k, v)]) = JsMap.size m + 1.
Proof. unfold JsMap.size. rewrite length_app. simpl. lia. Qed.

End JsMapFacts.

(** ** Permission hierarchy *)

Section HierarchyFacts.
Import Hierarchy.

(** C3.  For each of the five levels and each of the four actions,
    [canPerformAction] answers true exactly when the rank of the level is
    at least the rank of the action in the order
    none(0) < read(1) < write(2) < maintain(3) < admin(4); the sibling
    [hasPermission] computes the same comparison.  In particular
    write/admin is refused, admin/read is allowed, none/read is refused. *)
Theorem canPerformAction_rank :
  (∀ (l : level) (a : action),
     PermissionService.canPerformAction (level_name l) (action_name a)
       = bool_decide (level_rank l >= action_rank a)
     ∧ GithubOAuthService.hasPermission (level_name l) (action_name a)
       = bool_decide (level_rank l >= action_rank a))
  ∧ PermissionService.canPerformAction "write" "admin" = false
  ∧ PermissionService.canPerformAction "admin" "read" = true
  ∧ PermissionService.canPerformAction "none" "read" = false.
Proof.
  split; [| by vm_compute].
  intros l a. destruct l, a; by vm_compute.
Qed.

End HierarchyFacts.

(** ** Provider wrapper and resolver *)

Section ProviderFacts.
Import Js Types GithubOAuthService PermissionService.





Lemma getRepositoryPermission_rejected (t : transport) :
  is_rejected (makeGitHubRequest t) = true →
  getRepositoryPermission t = Fulfilled (JObject (Some "none")).
Proof.
  unfold getRepositoryPermission.
  by destruct (makeGitHubRequest t) as [[|p]|msg].
Qed.




End ProviderFacts.

(** ** Binary64 multiplication *)

Section Binary64Facts.
Import FloatAux AuthMiddleware.

Lemma digits2_pos_le (p : positive) (k : Z) :
  0 <= k → Z.pos p < 2 ^ k → Z.pos (digits2_pos p) <= k.
Proof.
  revert k. induction p as [p IH|p IH|]; intros k Hk Hp; simpl.
  - assert (k ≠ 0) by (intros ->; simpl in Hp; lia).
    replace k with (Z.succ (k - 1)) in Hp by lia.
    rewrite Z.pow_succ_r in Hp by lia.
    specialize (IH (k - 1)). lia.
  - assert (k ≠ 0) by (intros ->; simpl in Hp; lia).
    replace k with (Z.succ (k - 1)) in Hp by lia.
    rewrite Z.pow_succ_r in Hp by lia.
    specialize (IH (k - 1)). lia.
  - assert (k ≠ 0) by (intros ->; simpl in Hp; lia). lia.
Qed.

Lemma digits2_pos_gt (p : positive) : Z.pos p < 2 ^ Z.pos (digits2_pos p).
Proof.
  induction p as [p IH|p IH|]; simpl; [| | done].
  all: rewrite Pos2Z.inj_succ, Z.pow_succ_r by lia; lia.
Qed.

Lemma digits2_pos_iter_xO (p d : positive) :
  digits2_pos (Pos.iter xO p d) = (digits2_pos p + d)%positive.
Proof.
  induction d as [|d IH] using Pos.peano_ind.
  - simpl. lia.
  - rewrite Pos.iter_succ. simpl. rewrite IH. lia.
Qed.

Lemma shr_1_step (m : Z) (r s : bool) :
  0 <= m →
  shr_m (shr_1 (Build_shr_record m r s)) = m `div` 2
  ∧ shr_r (shr_1 (Build_shr_record m r s)) = Z.odd m.
Proof.
  intros Hm. destruct m as [|[p|p|]|]; simpl; try done; try lia.
  - split; [| done]. apply (Z.div_unique _ 2 _ 1); lia.
  - split; [| done]. apply (Z.div_unique _ 2 _ 0); lia.
Qed.

Lemma shr_1_inv (P j : Z) (mrs : shr_record) :
  0 <= P → shr_inv P j mrs → shr_inv P (j + 1) (shr_1 mrs).
Proof.
  intros HP (Hj & Hm & _). destruct mrs as [m r s]. simpl in Hm.
  assert (0 < 2 ^ j) as Hpow by (apply Z.pow_pos_nonneg; lia).
  assert (0 <= m) as Hm0 by (subst m; apply Z.div_pos; lia).
  destruct (shr_1_step m r s Hm0) as [Hm' Hr'].
  unfold shr_inv. rewrite Hm', Hr'.
  rewrite Z.pow_add_r by lia. change (2 ^ 1) with 2.
  split; [lia |]. split.
  - subst m. by rewrite Z.div_div by lia.
  - intros Hodd. rewrite Z.rem_mul_r by lia.
    rewrite <- Hm. rewrite Zmod_odd, Hodd.
    pose proof (Z.mod_pos_bound P (2 ^ j) Hpow). lia.
Qed.

Lemma iter_pos_shr_inv (P : Z) (p : positive) :
  0 <= P →
  ∀ j mrs, shr_inv P j mrs → shr_inv P (j + Z.pos p) (iter_pos shr_1 p mrs).
Proof.
  intros HP. induction p as [p IH|p IH|]; intros j mrs Hinv; simpl.
  - replace (j + Z.pos p~1) with (j + 1 + Z.pos p + Z.pos p) by lia.
    by apply IH, IH, shr_1_inv.
  - replace (j + Z.pos p~0) with (j + Z.pos p + Z.pos p) by lia.
    by apply IH, IH.
  - by apply shr_1_inv.
Qed.

(** A right shift by [fexp] truncates the mantissa and raises the rounding
    bit only when the part cut off is at least half a unit. *)
Lemma shr_fexp_inv (P e : Z) :
  0 <= P →
  let n := Z.max 0 (fexp 53 1024 (Zdigits2 P + e) - e) in
  shr_inv P n (shr_fexp 53 1024 P e loc_Exact).1
  ∧ (shr_fexp 53 1024 P e loc_Exact).2 = e + n.
Proof.
  intros HP n. unfold shr_fexp, shr. fold (fexp 53 1024).
  cbn [shr_record_of_loc].
  assert (shr_inv P 0 (Build_shr_record P false false)) as H0.
  { split; [done |]. split; [by rewrite Z.div_1_r | done]. }
  subst n. destruct (fexp 53 1024 (Zdigits2 P + e) - e) as [|p|p] eqn:E;
    cbn [fst snd].
  - split; [done | lia].
  - rewrite Z.max_r by lia. split; [| done].
    by apply (iter_pos_shr_inv P p HP 0).
  - rewrite Z.max_l by lia. split; [done | lia].
Qed.

Lemma round_nearest_even_up (mrs : shr_record) :
  let q' := round_nearest_even (shr_m mrs) (loc_of_shr_record mrs) in
  q' = shr_m mrs ∨ (q' = shr_m mrs + 1 ∧ shr_r mrs = true).
Proof.
  destruct mrs as [m [|] [|]]; simpl; try (by left); try (by right).
  destruct (Z.even m); [by left | by right].
Qed.

Lemma rounded_below (P n a q' : Z) :
  0 <= P → 0 <= n <= 53 → 0 <= a →
  P + 31 * 2 ^ 48 <= 62 * 2 ^ (a + n) →
  q' = P `div` 2 ^ n
  ∨ (q' = P `div` 2 ^ n + 1 ∧ 2 ^ n <= 2 * (P `mod` 2 ^ n)) →
  0 <= q' < 62 * 2 ^ a.
Proof.
  intros HP Hn Ha Hbound Hq.
  rewrite Z.pow_add_r in Hbound by lia.
  assert (0 < 2 ^ n) as HT by (apply Z.pow_pos_nonneg; lia).
  assert (2 ^ n <= 2 ^ 53) as HT' by (apply Z.pow_le_mono_r; lia).
  assert (0 < 2 ^ a) as HB by (apply Z.pow_pos_nonneg; lia).
  pose proof (Z.div_mod P (2 ^ n) ltac:(lia)) as Hdm.
  pose proof (Z.mod_pos_bound P (2 ^ n) HT) as Hr.
  assert (0 <= P `div` 2 ^ n) by (apply Z.div_pos; lia).
  set (T := 2 ^ n) in *. set (B := 2 ^ a) in *.
  set (q := P `div` T) in *. set (r := P `mod` T) in *.
  change (2 ^ 53) with 9007199254740992 in HT'.
  change (31 * 2 ^ 48) with 8725724278030336 in Hbound.
  destruct Hq as [->|[-> Hup]]; split; try lia; nia.
Qed.


Lemma Zdigits2_le (q k : Z) : 0 <= q < 2 ^ k → 0 <= k → Zdigits2 q <= k.
Proof.
  intros [Hq0 Hq] Hk. destruct q as [|p|p]; simpl; [done | | lia].
  by apply digits2_pos_le.
Qed.

(** The rounded product of a double below 1 and 62 stays below 62. *)
Lemma binary_round_aux_below (P : positive) (e : Z) :
  -1121 <= e <= -100 →
  Z.pos P < 2 ^ 106 →
  Z.pos P + 31 * 2 ^ 48 <= 62 * 2 ^ (- e) →
  ∃ j, Float64.floor (binary_round_aux 53 1024 false (Z.pos P) e loc_Exact)
       = Some j ∧ 0 <= j < 62.
Proof.
  intros He HP106 HP.
  assert (0 <= Z.pos P) as HP0 by lia.
  assert (Z.pos P < 2 ^ (6 - e)) as HP6.
  { replace (6 - e) with (6 + - e) by lia. rewrite Z.pow_add_r by lia.
    assert (0 < 2 ^ (- e)) by (apply Z.pow_pos_nonneg; lia).
    change (2 ^ 6) with 64. lia. }
  unfold binary_round_aux.
  destruct (shr_fexp_inv (Z.pos P) e HP0) as [Hinv He'].
  destruct (shr_fexp 53 1024 (Z.pos P) e loc_Exact) as [mrs' e'].
  cbn [fst snd] in Hinv, He'.
  set (n := Z.max 0 (fexp 53 1024 (Zdigits2 (Z.pos P) + e) - e)) in *.
  assert (0 <= n <= 53 ∧ e' <= -47) as [Hn He47].
  { pose proof (Zdigits2_le (Z.pos P) 106 ltac:(lia) ltac:(lia)).
    pose proof (Zdigits2_le (Z.pos P) (6 - e) ltac:(lia) ltac:(lia)).
    subst n. unfold fexp, emin in *. lia. }
  destruct Hinv as (_ & Hq & Hr).
  set (q' := round_nearest_even (shr_m mrs') (loc_of_shr_record mrs')).
  assert (0 <= q' < 62 * 2 ^ (- e')) as Hq'.
  { apply (rounded_below (Z.pos P) n (- e') q'); try lia.
    - by replace (- e' + n) with (- e) by lia.
    - destruct (round_nearest_even_up mrs') as [Hsame|[Hup Hbit]].
      + left. fold q' in Hsame. by rewrite Hsame, Hq.
      + right. fold q' in Hup. split; [by rewrite Hup, Hq | by apply Hr]. }
  destruct (shr_fexp_inv q' e' ltac:(lia)) as [Hinv2 He''].
  destruct (shr_fexp 53 1024 q' e' loc_Exact) as [mrs'' e''].
  cbn [fst snd] in Hinv2, He''.
  set (n' := Z.max 0 (fexp 53 1024 (Zdigits2 q' + e') - e')) in *.
  assert (0 < 2 ^ (- e')) as Hpow' by (apply Z.pow_pos_nonneg; lia).
  assert (0 <= n' ∧ e'' <= -47) as [Hn' He''47].
  { assert (q' < 2 ^ (6 - e')) as Hq6.
    { replace (6 - e') with (6 + - e') by lia. rewrite Z.pow_add_r by lia.
      change (2 ^ 6) with 64. lia. }
    pose proof (Zdigits2_le q' (6 - e') ltac:(lia) ltac:(lia)).
    subst n'. unfold fexp, emin in *. lia. }
  destruct Hinv2 as (_ & Hm'' & _).
  assert (0 < 2 ^ n') as Hpown by (apply Z.pow_pos_nonneg; lia).
  assert (0 < 2 ^ (- e'')) as Hpow'' by (apply Z.pow_pos_nonneg; lia).
  assert (0 <= shr_m mrs'' < 62 * 2 ^ (- e'')) as Hm.
  { rewrite Hm''. split; [apply Z.div_pos; lia |].
    apply Z.div_lt_upper_bound; [lia |].
    replace (- e') with (n' + - e'') in Hq' by lia.
    rewrite Z.pow_add_r in Hq' by lia. lia. }
  destruct (shr_m mrs'') as [|m|m]; [| | lia].
  - exists 0. split; [done | lia].
  - rewrite (proj2 (Z.leb_le e'' (1024 - 53))) by lia.
    exists (Z.pos m `div` 2 ^ (- e'')). split.
    + cbn [Float64.floor cond_Zopp]. f_equal.
      rewrite <- Z.shiftr_opp_r. apply Z.shiftr_div_pow2. lia.
    + split; [apply Z.div_pos; lia |].
      apply Z.div_lt_upper_bound; lia.
Qed.


Lemma iter_xO_pow (p d : positive) :
  Z.pos (Pos.iter xO p d) = Z.pos p * 2 ^ Z.pos d.
Proof.
  induction d as [|d IH] using Pos.peano_ind.
  - simpl. lia.
  - rewrite Pos.iter_succ, Pos2Z.inj_xO, IH, Pos2Z.inj_succ,
      Z.pow_succ_r by lia. lia.
Qed.

(** A mantissa of exactly 53 bits with an exponent in range is kept as it
    is. *)
Lemma binary_round_aux_canonical (m : positive) (e : Z) :
  Z.pos (digits2_pos m) = 53 → -1074 <= e <= 971 →
  binary_round_aux 53 1024 false (Z.pos m) e loc_Exact
  = S754_finite false m e.
Proof.
  intros Hd He.
  assert (shr_fexp 53 1024 (Z.pos m) e loc_Exact
          = (Build_shr_record (Z.pos m) false false, e)) as Hshr.
  { unfold shr_fexp. cbn [Zdigits2 shr_record_of_loc]. rewrite Hd.
    replace (fexp 53 1024 (53 + e) - e) with 0
      by (unfold fexp, emin; lia).
    done. }
  unfold binary_round_aux. rewrite Hshr.
  cbn [shr_m loc_of_shr_record round_nearest_even]. rewrite Hshr.
  cbn [shr_m]. by rewrite (proj2 (Z.leb_le e (1024 - 53))) by lia.
Qed.

(** The double of a draw [m / 2^53] is that number itself, in normal
    form. *)
Lemma of_scaled_draw (m : Z) :
  0 < m < 2 ^ 53 →
  ∃ mx ex, Float64.of_scaled m (-53) = S754_finite false mx ex
           ∧ Z.pos mx < 2 ^ 53 ∧ -1074 <= ex <= -53
           ∧ Z.pos mx = m * 2 ^ (-53 - ex).
Proof.
  intros [Hm0 Hm]. destruct m as [|p|p]; [lia | | lia].
  pose proof (digits2_pos_le p 53 ltac:(lia) Hm) as Hd.
  unfold Float64.of_scaled, binary_normalize, binary_round, shl_align.
  replace (fexp Float64.prec Float64.emax (Z.pos (digits2_pos p) + -53))
    with (Z.pos (digits2_pos p) - 106)
    by (unfold fexp, emin, Float64.prec, Float64.emax; lia).
  destruct (Z.pos (digits2_pos p) - 106 - -53) as [|d|d] eqn:E; [| lia |].
  - exists p, (-53). split; [| split; [done | split; [lia |]]].
    + apply binary_round_aux_canonical; lia.
    + change (2 ^ (-53 - -53)) with 1. lia.
  - exists (Pos.iter xO p d), (Z.pos (digits2_pos p) - 106).
    assert (Z.pos (digits2_pos (Pos.iter xO p d)) = 53) as Hd'.
    { rewrite digits2_pos_iter_xO. lia. }
    split; [| split; [| split; [lia |]]].
    + apply binary_round_aux_canonical; [done | lia].
    + pose proof (digits2_pos_gt (Pos.iter xO p d)) as Hgt.
      by rewrite Hd' in Hgt.
    + rewrite iter_xO_pow. f_equal. f_equal. lia.
Qed.

(** [Math.floor(Math.random() * 62)] is an index into the 62 characters,
    whatever the draw. *)
Lemma floor_scaled_range (m : Z) :
  unit_draw m → ∃ j, floor_scaled m 62 = Some j ∧ 0 <= j < 62.
Proof.
  intros [Hm0 Hm]. destruct (decide (m = 0)) as [->|Hne].
  { exists 0. split; [by vm_compute | lia]. }
  destruct (of_scaled_draw m ltac:(lia)) as (mx & ex & Hx & Hmx & Hex & _).
  unfold floor_scaled, Float64.mul. rewrite Hx.
  change (Float64.of_scaled 62 0)
    with (S754_finite false 8725724278030336 (-47)).
  cbn [SFmul xorb]. apply binary_round_aux_below.
  - lia.
  - rewrite Pos2Z.inj_mul.
    change (Z.pos 8725724278030336) with 8725724278030336.
    change (2 ^ 106) with (2 ^ 53 * 2 ^ 53).
    change (2 ^ 53) with 9007199254740992 in *. nia.
  - rewrite Pos2Z.inj_mul.
    replace (- (ex + -47)) with (48 + (- ex - 53) + 52) by lia.
    rewrite !Z.pow_add_r by lia.
    assert (0 < 2 ^ (- ex - 53)) by (apply Z.pow_pos_nonneg; lia).
    change (Z.pos 8725724278030336) with 8725724278030336.
    change (2 ^ 48) with 281474976710656.
    change (2 ^ 52) with 4503599627370496.
    change (2 ^ 53) with 9007199254740992 in *. nia.
Qed.

(** The rounding is observable: for the draw [2324438517352514 / 2^53]
    the exact product with 62 lies just below 16 and rounds to 16, so the
    17th character is picked where exact arithmetic would give the
    16th. *)
Lemma floor_scaled_rounded :
  floor_scaled 2324438517352514 62 = Some 16
  ∧ (2324438517352514 * 62) `div` 2 ^ 53 = 15.
Proof. by vm_compute. Qed.

End Binary64Facts.

(** ** Session tokens *)

Section TokenFacts.
Import Js AuthMiddleware Alphabet.

Lemma string_length_app (s1 s2 : string) :
  String.length (s1 +:+ s2) = (String.length s1 + String.length s2)%nat.
Proof. induction s1 as [|c s1 IH]; simpl; [done | by rewrite IH]. Qed.

Lemma list_ascii_of_string_app (s1 s2 : string) :
  String.list_ascii_of_string (s1 +:+ s2)
  = String.list_ascii_of_string s1 ++ String.list_ascii_of_string s2.
Proof. induction s1 as [|c s1 IH]; simpl; [done | by rewrite IH]. Qed.

Lemma string_get_lt (s : string) (n : nat) :
  (n < String.length s)%nat →
  ∃ c, String.get n s = Some c ∧ c ∈ String.list_ascii_of_string s.
Proof.
  revert n. induction s as [|c s IH]; simpl; intros n Hn; [lia |].
  destruct n as [|n].
  - exists c. split; [done | left].
  - destruct (IH n) as (c' & Hget & Hin); [lia |].
    exists c'. split; [done | by right].
Qed.

Lemma chars_alphanumeric : alphanumeric chars.
Proof.
  unfold alphanumeric. apply Forall_forall. intros c Hc.
  cbv [chars String.list_ascii_of_string] in Hc.
  repeat (apply elem_of_cons in Hc as [->|Hc]; [by vm_compute |]).
  by apply elem_of_nil in Hc.
Qed.

(** Each iteration appends exactly one character of [chars]. *)
Lemma pick_char (m : Z) :
  unit_draw m →
  ∃ c, match floor_scaled m (Z.of_nat (String.length chars)) with
       | Some position => charAt chars position
       | None => ""
       end = String c EmptyString
       ∧ is_alnum c = true.
Proof.
  intros Hm.
  change (Z.of_nat (String.length chars)) with 62.
  destruct (floor_scaled_range m Hm) as (j & -> & Hj).
  destruct (string_get_lt chars (Z.to_nat j)) as (c & Hget & Hin).
  { change (String.length chars) with 62%nat. lia. }
  exists c. unfold charAt.
  rewrite bool_decide_eq_false_2 by lia. rewrite Hget. split; [done |].
  pose proof chars_alphanumeric as Hall. unfold alphanumeric in Hall.
  rewrite Forall_forall in Hall. by apply Hall.
Qed.

Lemma token_loop_spec (random : nat → Z) (fuel i : nat) (token : string) :
  (∀ j, unit_draw (random j)) →
  alphanumeric token →
  String.length (token_loop random fuel i token)
    = (String.length token + fuel)%nat
  ∧ alphanumeric (token_loop random fuel i token).
Proof.
  intros Hrand. revert i token.
  induction fuel as [|fuel IH]; intros i token Htok; cbn [token_loop].
  - split; [lia | done].
  - destruct (pick_char (random i) (Hrand i)) as (c & -> & Hc).
    destruct (IH (S i) (token +:+ String c EmptyString)) as [Hlen Hal].
    + unfold alphanumeric. rewrite list_ascii_of_string_app.
      apply Forall_app. split; [done |]. simpl. by repeat constructor.
    + split; [| done]. rewrite Hlen, string_length_app. simpl. lia.
Qed.

(** C7.  With its default length the token generator returns a string
    of exactly 32 characters, each an ASCII upper-case letter, lower-case
    letter or digit, whatever [Math.random] draws from [[0, 1)]; the
    token under which [storeSession] files a session is such a string. *)
Theorem generateSessionToken_default_shape (random : nat → Z) :
  (∀ j, unit_draw (random j)) →
  String.length (generateSessionToken random None) = 32%nat
  ∧ alphanumeric (generateSessionToken random None)
  ∧ ∀ sessionStore session,
      (storeSession random sessionStore session).1
      = generateSessionToken random None.
Proof.
  intros Hrand. unfold generateSessionToken. simpl default.
  destruct (token_loop_spec random 32 0 "" Hrand) as [Hlen Hal].
  - unfold alphanumeric; simpl. constructor.
  - split; [exact Hlen | split; [exact Hal | done]].
Qed.

Lemma generateSessionToken_default_shape_witness :
  String.length (generateSessionToken (λ _, 2 ^ 52) None) = 32%nat
  ∧ alphanumeric (generateSessionToken (λ _, 2 ^ 52) None).
Proof.
  assert (∀ j : nat, unit_draw ((λ _ : nat, 2 ^ 52) j)) as Hdraw
    by (intros _; unfold unit_draw; lia).
  split.
  - exact (proj1 (generateSessionToken_default_shape _ Hdraw)).
  - exact (proj1 (proj2 (generateSessionToken_default_shape _ Hdraw))).
Defined.

End TokenFacts.

(** ** Session store *)

Section SessionFacts.
Import Js Types AuthMiddleware Aux.
Implicit Types (st : gmap string AuthSession) (token : string).

(** C5.  Reading a token whose stored session has [now > expiresAt]
    reports not-found and leaves a store without that token (all other
    tokens untouched); reading a token whose stored session is not
    expired returns that session and leaves the store as it was. *)
Theorem getSession_lazy_expiry (now : Z) st token (s : AuthSession) :
  st !! token = Some s →
  let r := getSession now st token in
  (now > expiresAt s →
     r.1 = None ∧ r.2 !! token = None
     ∧ ∀ token', token' ≠ token → r.2 !! token' = st !! token')
  ∧ (¬ now > expiresAt s → r.1 = Some s ∧ r.2 = st).
Proof.
  intros Hs r. subst r. unfold getSession. rewrite Hs. split; intros Hexp.
  - rewrite bool_decide_eq_true_2 by done. simpl.
    split; [done |]. split; [apply lookup_delete_eq |].
    intros token' Hne. by apply lookup_delete_ne.
  - by rewrite bool_decide_eq_false_2.
Qed.

Lemma getSession_lazy_expiry_witness :
  (getSession 100 Examples.two_sessions "tokA").1 = None
  ∧ (getSession 100 Examples.two_sessions "tokA").2 !! "tokA" = None
  ∧ (getSession 100 Examples.two_sessions "tokB").1
    = Some (Examples.session_until 500).
Proof.
  pose proof (getSession_lazy_expiry 100 Examples.two_sessions "tokA"
                (Examples.session_until 50) eq_refl) as [HA _].
  pose proof (getSession_lazy_expiry 100 Examples.two_sessions "tokB"
                (Examples.session_until 500) eq_refl) as [_ HB].
  destruct HA as (HA1 & HA2 & _); [simpl; lia |].
  destruct HB as [HB1 _]; [simpl; lia |].
  exact (conj HA1 (conj HA2 HB1)).
Defined.

(** The sweep loop: the store loses the keys of the expired entries it
    visits, and the counter grows by their number. *)
Lemma sweep_fold (now : Z) (l : list (string * AuthSession)) st (n : Z) :
  fold_left (sweep_step now) l (st, n)
  = (fold_left (λ acc e, delete e.1 acc) (expired_in now l) st,
     n + Z.of_nat (length (expired_in now l))).
Proof.
  revert st n. induction l as [|e l IH]; intros st n; simpl.
  - f_equal. lia.
  - unfold expired_in in *. unfold sweep_step at 2.
    destruct (decide (now > expiresAt e.2)) as [He|He].
    + rewrite bool_decide_eq_true_2, filter_cons_True by done. simpl.
      rewrite IH. f_equal. lia.
    + rewrite bool_decide_eq_false_2, filter_cons_False by done.
      apply IH.
Qed.

Lemma lookup_delete_all (ks : list (string * AuthSession)) st token :
  fold_left (λ acc e, delete e.1 acc) ks st !! token
  = if decide (token ∈ ks.*1) then None else st !! token.
Proof.
  revert st. induction ks as [|e ks IH]; intros st; cbn [fold_left].
  - case_decide as H; [by apply elem_of_nil in H | done].
  - rewrite IH, fmap_cons. destruct (decide (token ∈ ks.*1)) as [Hin|Hin].
    + rewrite decide_True; [done | by right].
    + destruct (decide (token = e.1)) as [->|Hne].
      * rewrite decide_True by left. apply lookup_delete_eq.
      * rewrite decide_False by (rewrite not_elem_of_cons; done).
        by apply lookup_delete_ne.
Qed.

Lemma size_delete_all (ks : list (string * AuthSession)) st :
  NoDup ks.*1 → (∀ k, k ∈ ks.*1 → is_Some (st !! k)) →
  size (fold_left (λ acc e, delete e.1 acc) ks st)
  = (size st - length ks)%nat.
Proof.
  revert st. induction ks as [|e ks IH]; intros st Hnd Hin; simpl.
  - lia.
  - rewrite fmap_cons in Hnd. apply NoDup_cons in Hnd as [Hfresh Hnd].
    rewrite IH; [| done |].
    + rewrite map_size_delete_Some by (apply Hin; left). lia.
    + intros k Hk. rewrite lookup_delete_ne; [apply Hin; by right |].
      intros <-. done.
Qed.

Lemma expired_in_keys (now : Z) st token :
  token ∈ (expired_in now (map_to_list st)).*1
  ↔ ∃ s, st !! token = Some s ∧ now > expiresAt s.
Proof.
  unfold expired_in. rewrite list_elem_of_fmap. split.
  - intros ([k s] & -> & Hin). apply list_elem_of_filter in Hin as [He Hin].
    apply elem_of_map_to_list in Hin. eauto.
  - intros (s & Hs & He). exists (token, s). split; [done |].
    apply list_elem_of_filter. split; [done |].
    by apply elem_of_map_to_list.
Qed.

Lemma expired_in_NoDup (now : Z) st :
  NoDup (expired_in now (map_to_list st)).*1.
Proof.
  unfold expired_in.
  apply (sublist_NoDup _ (map_to_list st).*1);
    [apply NoDup_fst_map_to_list | apply fmap_sublist, sublist_filter].
Qed.

(** C6 fails as worded: on a store holding one expired and one live
    session the sweep removes one entry, but the call evaluates to
    [undefined], not to the count 1. *)
Lemma clearExpiredSessions_returns_undefined :
  let r := clearExpiredSessions 100 Examples.two_sessions in
  sessions r !! "tokA" = None
  ∧ (size Examples.two_sessions - size (sessions r) = 1)%nat
  ∧ returned r = Undefined
  ∧ returned r ≠ Number 1.
Proof. by vm_compute. Qed.

(** C6, amended.  The sweep removes every entry with [now > expiresAt]
    and leaves every other entry in place; it counts the entries it
    removed, writes that count to the debug log when it is positive, and
    returns no value. *)
Theorem clearExpiredSessions_sweeps (now : Z) st :
  let r := clearExpiredSessions now st in
  let removed := Z.of_nat (size st) - Z.of_nat (size (sessions r)) in
  (∀ token s,
     sessions r !! token = Some s ↔ st !! token = Some s ∧ ¬ now > expiresAt s)
  ∧ 0 <= removed
  ∧ returned r = Undefined
  ∧ debug_log r
    = if bool_decide (removed > 0)
      then ["Cleared " +:+ number_to_string removed +:+ " expired sessions"]
      else [].
Proof.
  intros r removed.
  assert (Hfold : fold_left (sweep_step now) (map_to_list st) (st, 0)
            = (fold_left (λ acc e, delete e.1 acc)
                 (expired_in now (map_to_list st)) st,
               Z.of_nat (length (expired_in now (map_to_list st)))))
    by (rewrite sweep_fold; f_equal; lia).
  assert (Hsize : size (sessions r)
            = (size st - length (expired_in now (map_to_list st)))%nat).
  { subst r. unfold clearExpiredSessions. rewrite Hfold. simpl.
    apply size_delete_all; [apply expired_in_NoDup |].
    intros k (s & Hs & _)%expired_in_keys. eauto. }
  assert (Hle : (length (expired_in now (map_to_list st)) ≤ size st)%nat).
  { rewrite <- length_map_to_list. unfold expired_in. apply length_filter. }
  assert (Hrem : removed = Z.of_nat (length (expired_in now (map_to_list st))))
    by (subst removed; lia).
  split; [| split; [lia | split; [done |]]].
  - intros token s. subst r. unfold clearExpiredSessions.
    rewrite Hfold. simpl. rewrite lookup_delete_all.
    destruct (decide (token ∈ (expired_in now (map_to_list st)).*1))
      as [Hin|Hin]; rewrite expired_in_keys in Hin.
    + destruct Hin as (s' & Hs' & He). split; [done |].
      intros [Hs Hlive]. congruence.
    + split; [| by intros [? _]].
      intros Hs. split; [done |]. intros He. apply Hin. eauto.
  - rewrite Hrem. subst r. unfold clearExpiredSessions.
    rewrite Hfold. done.
Qed.

Lemma clearExpiredSessions_sweeps_witness :
  sessions (clearExpiredSessions 100 Examples.two_sessions) !! "tokB"
  = Some (Examples.session_until 500).
Proof.
  apply (proj1 (clearExpiredSessions_sweeps 100 Examples.two_sessions)).
  split; [reflexivity | simpl; lia].
Defined.

End SessionFacts.

(** ** Invalidation *)

Section InvalidateFacts.
Import Types AuthMiddleware PermissionService.

(** C8.  Invalidation is an unconditional removal.  On the session
    store and on the permission cache alike: after invalidating a key
    that key is absent, whether or not it was present before; every
    other key reads as before; invalidating a key that is absent returns
    the store unchanged; and invalidating twice gives the same store as
    invalidating once.  Both operations are total functions, so neither
    can fail. *)
Theorem invalidate_idempotent :
  (∀ (sessionStore : gmap string AuthSession) (token : string),
     invalidateSession sessionStore token !! token = None
     ∧ (∀ other, other ≠ token →
                 invalidateSession sessionStore token !! other
                 = sessionStore !! other)
     ∧ (sessionStore !! token = None →
        invalidateSession sessionStore token = sessionStore)
     ∧ invalidateSession (invalidateSession sessionStore token) token
       = invalidateSession sessionStore token)
  ∧ (∀ (permissionCache : JsMap.t CachedPermission) (userId : Z)
       (owner repo : string),
       JsMap.get (invalidatePermissionCache permissionCache userId owner repo)
         (getCacheKey userId owner repo) = None
       ∧ (∀ other, other ≠ getCacheKey userId owner repo →
                   JsMap.get
                     (invalidatePermissionCache permissionCache userId owner
                        repo) other
                   = JsMap.get permissionCache other)
       ∧ (JsMap.get permissionCache (getCacheKey userId owner repo) = None →
          invalidatePermissionCache permissionCache userId owner repo
          = permissionCache)
       ∧ invalidatePermissionCache
           (invalidatePermissionCache permissionCache userId owner repo)
           userId owner repo
         = invalidatePermissionCache permissionCache userId owner repo).
Proof.
  split.
  - intros sessionStore token. unfold invalidateSession.
    split; [apply lookup_delete_eq |].
    split; [intros other Hne; by apply lookup_delete_ne |].
    split; [apply delete_id | apply delete_delete_eq].
  - intros permissionCache userId owner repo.
    unfold invalidatePermissionCache.
    split; [apply JsMap_get_delete_eq |].
    split; [intros other Hne; by apply JsMap_get_delete_ne |].
    split; [apply JsMap_delete_absent | apply JsMap_delete_idemp].
Qed.

Lemma invalidate_idempotent_witness :
  (invalidateSession Examples.two_sessions "tokA" !! "tokA" = None
   ∧ invalidateSession Examples.two_sessions "tokA" !! "tokB"
     = Examples.two_sessions !! "tokB"
   ∧ invalidateSession Examples.two_sessions "tokZ" = Examples.two_sessions)
  ∧ (JsMap.get
       (invalidatePermissionCache (Examples.cache_of 3 (λ i, 1000 + i)) 1
          "acme" "widgets") (getCacheKey 1 "acme" "widgets") = None
     ∧ JsMap.get
         (invalidatePermissionCache (Examples.cache_of 3 (λ i, 1000 + i)) 1
            "acme" "widgets") (getCacheKey 2 "acme" "widgets")
       = JsMap.get (Examples.cache_of 3 (λ i, 1000 + i))
           (getCacheKey 2 "acme" "widgets")
     ∧ invalidatePermissionCache
         (Examples.cache_of 3 (λ i, 1000 + i)) 7 "acme" "widgets"
       = Examples.cache_of 3 (λ i, 1000 + i)).
Proof.
  split.
  - destruct (proj1 invalidate_idempotent Examples.two_sessions "tokA")
      as (Hgone & Hother & _).
    destruct (proj1 invalidate_idempotent Examples.two_sessions "tokZ")
      as (_ & _ & Habsent & _).
    split; [exact Hgone |]. split; [by apply Hother |].
    apply Habsent. reflexivity.
  - destruct (proj2 invalidate_idempotent
                (Examples.cache_of 3 (λ i, 1000 + i)) 1 "acme" "widgets")
      as (Hgone & Hother & _).
    destruct (proj2 invalidate_idempotent
                (Examples.cache_of 3 (λ i, 1000 + i)) 7 "acme" "widgets")
      as (_ & _ & Habsent & _).
    split; [exact Hgone |]. split; [apply Hother; by vm_compute |].
    apply Habsent. by vm_compute.
Defined.

End InvalidateFacts.

(** ** Authorization state store *)

Section StateFacts.
Import Js Types AuthRoutes.
Implicit Types (st : gmap string OAuthState) (nonce : string).

(** C2 fails as worded: a nonce issued at time 0 validates at time 1000
    and, the record having been left in place, validates again at time
    2000; the same happens when the first validation belongs to a
    callback whose code exchange then fails. *)
Lemma validateState_twice_succeeds :
  let first := validateState 1000 Examples.one_state "s1" in
  let second := validateState 2000 first.2 "s1" in
  let failed := callback 1000 1000 (λ _, 0) (Some "secret")
                  (Rejected "bad_verification_code")
                  (Fulfilled Examples.alice)
                  {| code := Some "abc"; state := Some "s1";
                     error := None; error_description := None |}
                  Examples.one_state ∅ in
  first.1 = true ∧ second.1 = true
  ∧ status failed = 500
  ∧ (validateState 2000 (states failed) "s1").1 = true.
Proof. by vm_compute. Qed.

Lemma validateState_true now st nonce :
  (validateState now st nonce).1 = true
  ↔ ∃ e, st !! nonce = Some e ∧ now - createdAt e <= STATE_EXPIRY.
Proof.
  unfold validateState. destruct (st !! nonce) as [e|]; simpl.
  - case_bool_decide as Hexp; simpl.
    + split; [done |]. intros (e' & [= <-] & He). lia.
    + split; [| done]. intros _. exists e. split; [done | lia].
  - split; [done |]. by intros (e & ? & _).
Qed.

Lemma validateState_keeps now st nonce :
  (validateState now st nonce).1 = true → (validateState now st nonce).2 = st.
Proof.
  unfold validateState. destruct (st !! nonce) as [e|]; [| done].
  by case_bool_decide.
Qed.

Lemma validateState_cleared now st nonce :
  st !! nonce = None → (validateState now st nonce).1 = false.
Proof. unfold validateState. by intros ->. Qed.

(** C2, amended.  [validateState] succeeds exactly when the record is
    present and at most ten minutes old, and a successful validation
    leaves the store as it was (the record is deleted by [validateState]
    only when found expired), so a second validation inside the window
    succeeds as well.  The record is consumed by [clearState], which the
    callback reaches only after code exchange, identity lookup and
    session creation have succeeded: after a callback answered 200 the
    nonce never validates again, whereas a callback that answered 500
    had validated the nonce and left the state store untouched. *)
Theorem validateState_then_clearState now st nonce :
  ((validateState now st nonce).1 = true
   ↔ ∃ e, st !! nonce = Some e ∧ now - createdAt e <= STATE_EXPIRY)
  ∧ ((validateState now st nonce).1 = true →
     (validateState now st nonce).2 = st)
  ∧ ((validateState now st nonce).1 = false →
     (validateState now st nonce).2 !! nonce = None)
  ∧ (∀ now' e,
       st !! nonce = Some e →
       now - createdAt e <= STATE_EXPIRY →
       now' - createdAt e <= STATE_EXPIRY →
       validateState now st nonce = (true, st)
       ∧ validateState now' (validateState now st nonce).2 nonce = (true, st))
  ∧ (∀ now', (validateState now' (clearState st nonce) nonce).1 = false)
  ∧ (∀ tSession random secret exchange identity q sessionStore,
       state q = Some nonce →
       let o := callback now tSession random secret exchange identity q
                  st sessionStore in
       (status o = 200 →
          (validateState now st nonce).1 = true
          ∧ states o = clearState st nonce)
       ∧ (status o = 500 →
          (validateState now st nonce).1 = true ∧ states o = st)).
Proof.
  split; [apply validateState_true |].
  split; [apply validateState_keeps |].
  split.
  { unfold validateState. destruct (st !! nonce) as [e|] eqn:E; [| done].
    case_bool_decide; [intros _; apply lookup_delete_eq | done]. }
  split.
  { intros now' e He Hage Hage'.
    assert (∀ t, t - createdAt e <= STATE_EXPIRY →
                 validateState t st nonce = (true, st)) as Hin.
    { intros t Ht. unfold validateState. rewrite He.
      by rewrite bool_decide_eq_false_2 by lia. }
    rewrite (Hin now Hage). split; [done | by apply Hin]. }
  split.
  { intros now'. apply validateState_cleared. apply lookup_delete_eq. }
  intros tSession random secret exchange identity q sessionStore Hq o.
  subst o. unfold callback. rewrite Hq. simpl default.
  destruct (present (error q)); [by split |].
  destruct (negb (present (code q)) || negb (present (Some nonce)));
    [by split |].
  destruct (validateState now st nonce) as [[|] ss] eqn:Ev; [| by split].
  assert (ss = st) as ->.
  { change ss with (true, ss).2. rewrite <- Ev.
    apply validateState_keeps. by rewrite Ev. }
  destruct (negb (present secret)); [by split |].
  destruct exchange as [tokenResponse|msg]; [| by split].
  destruct identity as [user|msg]; [| by split].
  destruct (scope tokenResponse) as [sc|]; [| by split].
  cbn [status states fst snd]. split; [done |]. intros [=].
Qed.

Lemma validateState_then_clearState_witness :
  validateState 2000 (validateState 1000 Examples.one_state "s1").2 "s1"
  = (true, Examples.one_state).
Proof.
  refine (proj2 (proj1 (proj2 (proj2 (proj2
            (validateState_then_clearState 1000 Examples.one_state "s1"))))
            2000 {| createdAt := 0; redirectUrl := Some "/" |} _ _ _)).
  - reflexivity.
  - by vm_compute.
  - by vm_compute.
Defined.

End StateFacts.

(** ** Permission cache: capacity and eviction *)

Section CacheFacts.
Import Js Types PermissionService Aux.
Implicit Types (c : JsMap.t CachedPermission) (k : string) (t : Z).
Implicit Types (e : CachedPermission).

(** The scan keeps its accumulator when nothing is strictly older. *)
Lemma scan_nothing_older c k t :
  (∀ k' e, (k', e) ∈ c → ¬ cachedAt e < t) →
  fold_left scan_step c (k, t) = (k, t).
Proof.
  induction c as [|[k1 e1] c IH]; intros Hall; simpl; [done |].
  unfold scan_step at 2. simpl.
  rewrite bool_decide_eq_false_2 by (apply (Hall k1); left).
  apply IH. intros k' e Hin. apply (Hall k'). by right.
Qed.

(** What the scan returns: the initial accumulator, or the key and
    time of a stored entry strictly older than the initial time; in
    both cases a time that no stored entry is older than. *)
Lemma scan_result c k0 t0 :
  let r := fold_left scan_step c (k0, t0) in
  r.2 <= t0
  ∧ (∀ k' e, (k', e) ∈ c → r.2 <= cachedAt e)
  ∧ (r = (k0, t0) ∨ ∃ e, (r.1, e) ∈ c ∧ cachedAt e = r.2 ∧ r.2 < t0).
Proof.
  revert k0 t0. induction c as [|[k1 e1] c IH]; intros k0 t0; simpl.
  - split; [lia |]. split; [| by left].
    intros k' e Hin. by apply elem_of_nil in Hin.
  - destruct (decide (cachedAt e1 < t0)) as [Hlt|Hlt].
    + assert (scan_step (k0, t0) (k1, e1) = (k1, cachedAt e1)) as ->
        by (unfold scan_step; simpl; by rewrite bool_decide_eq_true_2).
      specialize (IH k1 (cachedAt e1)). simpl in IH.
      destruct IH as (Hle & Hmin & Hsel).
      split; [lia |]. split.
      * intros k' e [[= -> ->]|Hin]%elem_of_cons; [exact Hle | eauto].
      * right. destruct Hsel as [Heq|(e & Hin & Het & Hlt')].
        -- exists e1. rewrite Heq. simpl.
           split; [left | split; [done | lia]].
        -- exists e. split; [by right | split; [done | lia]].
    + assert (scan_step (k0, t0) (k1, e1) = (k0, t0)) as ->
        by (unfold scan_step; simpl; by rewrite bool_decide_eq_false_2).
      specialize (IH k0 t0). simpl in IH.
      destruct IH as (Hle & Hmin & Hsel).
      split; [done |]. split.
      * intros k' e [[= -> ->]|Hin]%elem_of_cons; [lia | eauto].
      * destruct Hsel as [Heq|(e & Hin & Het & Hlt')]; [by left |].
        right. exists e. split; [by right | done].
Qed.

Lemma JsMap_size_delete_present c k :
  JsMap.wf c → k ∈ c.*1 →
  JsMap.size (JsMap.delete c k) = JsMap.size c - 1.
Proof.
  unfold JsMap.wf, JsMap.size, JsMap.delete.
  induction c as [|[k1 e1] c IH]; intros Hnd Hin.
  - by apply elem_of_nil in Hin.
  - rewrite fmap_cons in Hnd, Hin. apply NoDup_cons in Hnd as [Hfresh Hnd].
    simpl in Hfresh. destruct (decide (k1 = k)) as [->|Hne].
    + rewrite filter_cons_False by (simpl; tauto).
      fold (JsMap.delete c k).
      rewrite JsMap_delete_absent by (by apply JsMap_get_None).
      simpl length. lia.
    + rewrite filter_cons_True by done.
      apply elem_of_cons in Hin as [Heq|Hin]; [simpl in Heq; congruence |].
      simpl length. rewrite !Nat2Z.inj_succ, IH by done. lia.
Qed.

(** C10.  The scan selects a key only together with a stored entry whose
    [cachedAt] is strictly below the clock value the scan started from.
    Hence, when the cache is at capacity and no stored entry is strictly
    older than that clock value, nothing is evicted: a new key is
    appended to the unchanged cache, and from exactly 10,000 entries the
    size becomes 10,001. *)
Theorem setCachedPermission_scan_strict :
  (∀ tScan c,
     scan_oldest tScan c = ("", tScan)
     ∨ ∃ e, ((scan_oldest tScan c).1, e) ∈ c
            ∧ cachedAt e = (scan_oldest tScan c).2
            ∧ cachedAt e < tScan)
  ∧ (∀ tCached tScan c userId username owner repo permission ttl,
       JsMap.size c >= MAX_CACHE_SIZE →
       (∀ k e, (k, e) ∈ c → ¬ cachedAt e < tScan) →
       JsMap.get c (getCacheKey userId owner repo) = None →
       let r := setCachedPermission tCached tScan c userId username owner
                  repo permission ttl in
       r.2 = c ++ [(getCacheKey userId owner repo, r.1)]
       ∧ JsMap.size r.2 = JsMap.size c + 1
       ∧ (JsMap.size c = 10000 → JsMap.size r.2 = 10001)).
Proof.
  split.
  - intros tScan c. unfold scan_oldest, JsMap.entries.
    destruct (scan_result c "" tScan) as (_ & _ & [Heq|Hsel]); [by left |].
    destruct Hsel as (e & Hin & Het & Hlt). right. exists e.
    split; [done | split; [done | lia]].
  - intros tCached tScan c userId username owner repo permission ttl
      Hfull Hnone Hnew r.
    assert (Hev : evict_if_full tScan c = c).
    { unfold evict_if_full, scan_oldest, JsMap.entries.
      rewrite scan_nothing_older by done. simpl.
      by case_bool_decide. }
    assert (Hr : r.2 = c ++ [(getCacheKey userId owner repo, r.1)]).
    { subst r. unfold setCachedPermission. cbn [fst snd].
      rewrite Hev. by apply JsMap_set_new. }
    split; [done |]. rewrite Hr, JsMap_size_app. split; lia.
Qed.

Lemma setCachedPermission_scan_strict_witness :
  JsMap.size
    (setCachedPermission 5000 5000 (Examples.cache_of 10000 (λ _, 5000))
       10000 "user" "acme" "widgets" (Some "read") None).2
  = 10001.
Proof.
  refine (proj2 (proj2 (proj2 setCachedPermission_scan_strict
            5000 5000 (Examples.cache_of 10000 (λ _, 5000))
            10000 "user" "acme" "widgets" (Some "read") None _ _ _)) _).
  - by vm_compute.
  - intros k e (i & [= -> ->] & _)%list_elem_of_fmap. simpl. lia.
  - by vm_compute.
  - by vm_compute.
Defined.

(** *** Reachable caches satisfy [cache_inv] *)

Lemma JsMap_keys_set c k e :
  (JsMap.set c k e).*1 = if decide (k ∈ c.*1) then c.*1 else c.*1 ++ [k].
Proof.
  induction c as [|[k1 e1] c IH]; cbn [JsMap.set].
  - case_decide as H; [by apply elem_of_nil in H | done].
  - rewrite (fmap_cons _ (k1, e1) c). cbn [fst].
    case_bool_decide as Hk.
    + subst k1. rewrite decide_True by left. done.
    + rewrite fmap_cons, IH. cbn [fst].
      destruct (decide (k ∈ c.*1)) as [Hin|Hin].
      * rewrite decide_True by (by right). done.
      * rewrite decide_False; [done |].
        rewrite not_elem_of_cons. split; [congruence | done].
Qed.

Lemma JsMap_keys_delete c k k' :
  k' ∈ (JsMap.delete c k).*1 ↔ k' ∈ c.*1 ∧ k' ≠ k.
Proof.
  unfold JsMap.delete. rewrite !list_elem_of_fmap. split.
  - intros ([k1 e1] & -> & [Hne Hin]%list_elem_of_filter).
    split; [by exists (k1, e1) | done].
  - intros [([k1 e1] & -> & Hin) Hne]. exists (k1, e1).
    split; [done |]. by apply list_elem_of_filter.
Qed.

Lemma JsMap_wf_delete c k : JsMap.wf c → JsMap.wf (JsMap.delete c k).
Proof.
  unfold JsMap.wf, JsMap.delete. intros Hnd.
  apply (sublist_NoDup _ c.*1); [done | apply fmap_sublist, sublist_filter].
Qed.

Lemma cache_inv_delete c k : cache_inv c → cache_inv (JsMap.delete c k).
Proof.
  intros [Hwf Hkeys]. split; [by apply JsMap_wf_delete |].
  intros k' [Hin _]%JsMap_keys_delete. by apply Hkeys.
Qed.

Lemma getCacheKey_truthy userId owner repo :
  truthy (getCacheKey userId owner repo) = true.
Proof.
  unfold getCacheKey, number_to_string.
  by destruct (pretty userId).
Qed.

Lemma cache_inv_evict tScan c : cache_inv c → cache_inv (evict_if_full tScan c).
Proof.
  intros Hinv. unfold evict_if_full. case_bool_decide; [| done].
  destruct (truthy _); [by apply cache_inv_delete | done].
Qed.

Lemma cache_inv_empty : cache_inv [].
Proof.
  split; [constructor |]. intros k Hk. by apply elem_of_nil in Hk.
Qed.

Lemma cache_inv_setCachedPermission
    tCached tScan c userId username owner repo permission ttl :
  cache_inv c →
  cache_inv (setCachedPermission tCached tScan c userId username owner repo
               permission ttl).2.
Proof.
  intros Hinv%(cache_inv_evict tScan). destruct Hinv as [Hwf Hkeys].
  unfold setCachedPermission. cbn [snd]. unfold cache_inv, JsMap.wf.
  rewrite JsMap_keys_set. case_decide as Hin; [done |].
  split.
  - apply NoDup_app. split; [done |]. split; [| apply NoDup_singleton].
    intros k Hk ->%list_elem_of_singleton. done.
  - intros k [Hk | ->%list_elem_of_singleton]%elem_of_app; [by apply Hkeys |].
    apply getCacheKey_truthy.
Qed.

(** When some stored entry is strictly older than the scan clock, a
    full cache gives up exactly one entry, one with the least
    [cachedAt], and the size is unchanged by inserting a new key. *)
Lemma setCachedPermission_evicts_oldest
    tCached tScan c userId username owner repo permission ttl :
  cache_inv c →
  JsMap.size c >= MAX_CACHE_SIZE →
  (∃ k e, (k, e) ∈ c ∧ cachedAt e < tScan) →
  JsMap.get c (getCacheKey userId owner repo) = None →
  let r := setCachedPermission tCached tScan c userId username owner repo
             permission ttl in
  ∃ k e, (k, e) ∈ c
         ∧ (∀ k' e', (k', e') ∈ c → cachedAt e <= cachedAt e')
         ∧ r.2 = JsMap.delete c k ++ [(getCacheKey userId owner repo, r.1)]
         ∧ JsMap.get r.2 k = None
         ∧ JsMap.size r.2 = JsMap.size c.
Proof.
  intros [Hwf Hkeys] Hfull (k0 & e0 & Hin0 & Hold) Hnew r.
  destruct (scan_result c "" tScan) as (Hle & Hmin & Hsel).
  destruct Hsel as [Heq|(e & Hin & Het & Hlt)].
  { rewrite Heq in Hmin. specialize (Hmin k0 e0 Hin0). simpl in Hmin. lia. }
  set (k := (fold_left scan_step c ("", tScan)).1) in *.
  assert (Hk : k ∈ c.*1)
    by (apply list_elem_of_fmap; by exists (k, e)).
  assert (Hev : evict_if_full tScan c = JsMap.delete c k).
  { unfold evict_if_full, scan_oldest, JsMap.entries. fold k.
    rewrite bool_decide_eq_true_2 by done. by rewrite (Hkeys k Hk). }
  assert (Hfresh : JsMap.get (JsMap.delete c k) (getCacheKey userId owner repo)
                   = None).
  { apply JsMap_get_None. intros [Hc _]%JsMap_keys_delete.
    by apply JsMap_get_None in Hnew. }
  assert (Hne : getCacheKey userId owner repo ≠ k).
  { intros Heq. apply JsMap_get_None in Hnew. by rewrite Heq in Hnew. }
  assert (Hr : r.2 = JsMap.delete c k ++ [(getCacheKey userId owner repo, r.1)]).
  { subst r. unfold setCachedPermission. cbn [fst snd].
    rewrite Hev. by apply JsMap_set_new. }
  exists k, e. split; [done |]. split.
  { intros k' e' Hin'. rewrite Het. eauto. }
  split; [done |]. split.
  - rewrite Hr. apply JsMap_get_None. rewrite fmap_app.
    intros [[_ Hc]%JsMap_keys_delete|Hc%list_elem_of_singleton]%elem_of_app;
      [done | by apply Hne].
  - rewrite Hr, JsMap_size_app, JsMap_size_delete_present by done. lia.
Qed.

(** C4 on the code.  Two full caches on which a set call with a new
    key evicts nothing and leaves 10,001 entries: one whose 10,000
    entries were cached one per millisecond from time 1000 and which is
    written to after the wall clock was set back to 900, and one whose
    entries all carry the millisecond of the call itself.  In the first
    the entry with the least [cachedAt] (user 0) is still there. *)
Theorem setCachedPermission_overflows_capacity :
  let stepped := Examples.cache_of 10000 (λ i, 1000 + i) in
  let same_ms := Examples.cache_of 10000 (λ _, 5000) in
  let r1 := setCachedPermission 900 900 stepped 10000 "user" "acme"
              "widgets" (Some "read") None in
  let r2 := setCachedPermission 5000 5000 same_ms 10000 "user" "acme"
              "widgets" (Some "read") None in
  JsMap.size stepped = MAX_CACHE_SIZE
  ∧ JsMap.get stepped (getCacheKey 10000 "acme" "widgets") = None
  ∧ JsMap.size r1.2 = 10001
  ∧ JsMap.get r1.2 (getCacheKey 0 "acme" "widgets")
    = Some (Examples.entry_at 0 1000).2
  ∧ JsMap.size same_ms = MAX_CACHE_SIZE
  ∧ JsMap.size r2.2 = 10001.
Proof. by vm_compute. Qed.

End CacheFacts.

(** ** Strings and cache keys *)

Section KeyFacts.
Import Js Types PermissionService CacheAux.

Lemma string_app_cons (a : ascii) (s t : string) :
  String a s +:+ t = String a (s +:+ t).
Proof. done. Qed.

Lemma string_app_nil (t : string) : "" +:+ t = t.
Proof. done. Qed.

Lemma startsWith_app (p s : string) : JsString.startsWith (p +:+ s) p = true.
Proof.
  induction p as [|a p IH]; [by destruct s |].
  rewrite string_app_cons. simpl.
  by rewrite bool_decide_eq_true_2, IH.
Qed.

Lemma string_app_assoc (a b c : string) :
  (a +:+ b) +:+ c = a +:+ (b +:+ c).
Proof.
  induction a as [|x a IH]; [done |].
  rewrite !string_app_cons. by f_equal.
Qed.

Lemma lacks_cons (c a : ascii) (s : string) :
  lacks c (String a s) ↔ c ≠ a ∧ lacks c s.
Proof. unfold lacks. simpl. apply not_elem_of_cons. Qed.

Lemma lacks_app (c : ascii) (s1 s2 : string) :
  lacks c (s1 +:+ s2) ↔ lacks c s1 ∧ lacks c s2.
Proof.
  unfold lacks. rewrite list_ascii_of_string_app, not_elem_of_app. done.
Qed.

(** Two strings free of [c], each followed by [c]: if one is a prefix of
    the other, the parts before [c] coincide. *)
Lemma startsWith_upto (c : ascii) (a b x : string) :
  lacks c a → lacks c b →
  JsString.startsWith (a +:+ String c x) (b +:+ String c EmptyString) = true →
  a = b.
Proof.
  revert b. induction a as [|a0 a IH]; intros [|b0 b] Ha Hb;
    rewrite ?string_app_cons, ?string_app_nil; simpl.
  - done.
  - apply lacks_cons in Hb as [Hne _].
    rewrite bool_decide_eq_false_2 by done. done.
  - apply lacks_cons in Ha as [Hne _].
    rewrite bool_decide_eq_false_2 by congruence. done.
  - apply lacks_cons in Ha as [_ Ha]. apply lacks_cons in Hb as [_ Hb].
    intros [Heq Hrest]%andb_true_iff. apply bool_decide_eq_true in Heq.
    f_equal; [done | by apply IH].
Qed.

(** Two strings free of [c], each followed by [c] and a rest: equal
    wholes have equal parts. *)
Lemma app_sep_inj (c : ascii) (a b x y : string) :
  lacks c a → lacks c b →
  a +:+ String c x = b +:+ String c y → a = b ∧ x = y.
Proof.
  revert b. induction a as [|a0 a IH]; intros [|b0 b] Ha Hb;
    rewrite ?string_app_cons, ?string_app_nil.
  - by intros [= ->].
  - apply lacks_cons in Hb as [Hne _]. by intros [= ? _].
  - apply lacks_cons in Ha as [Hne _]. by intros [= ? _].
  - apply lacks_cons in Ha as [_ Ha]. apply lacks_cons in Hb as [_ Hb].
    intros [= -> Heq]. destruct (IH b Ha Hb Heq) as [-> ->]. done.
Qed.

Lemma pretty_N_go_lacks_colon (x : N) (s : string) :
  lacks ":" s → lacks ":" (pretty_N_go x s).
Proof.
  revert s. induction (N.lt_wf_0 x) as [x _ IH]; intros s Hs.
  assert (x = 0 ∨ 0 < x)%N as [->|Hx] by lia.
  - by rewrite pretty_N_go_0.
  - rewrite pretty_N_go_step by done. apply IH.
    + by apply N.div_lt.
    + apply lacks_cons. split; [| done].
      unfold pretty_N_char. by repeat case_match.
Qed.

Lemma number_to_string_lacks_colon (n : Z) : lacks ":" (number_to_string n).
Proof.
  assert (∀ p, lacks ":" (pretty (N.pos p))) as Hpos.
  { intros p. unfold pretty, pretty_N. rewrite decide_False by done.
    apply pretty_N_go_lacks_colon. unfold lacks. simpl. apply not_elem_of_nil. }
  unfold number_to_string, pretty, pretty_Z. destruct n as [|p|p].
  - unfold lacks. simpl. rewrite not_elem_of_cons.
    split; [done | apply not_elem_of_nil].
  - apply Hpos.
  - change ("-" +:+ pretty p) with (String "-" (pretty (N.pos p))).
    apply lacks_cons. split; [done | apply Hpos].
Qed.

Lemma getCacheKey_inj userId userId' owner owner' repo repo' :
  getCacheKey userId owner repo = getCacheKey userId' owner' repo' →
  userId = userId'
  ∧ (lacks "/" owner → lacks "/" owner' → owner = owner' ∧ repo = repo').
Proof.
  intros Hkey. unfold getCacheKey in Hkey.
  apply (app_sep_inj ":") in Hkey as [Hu Hrest];
    [| apply number_to_string_lacks_colon..].
  split; [by apply (inj pretty) |].
  intros Ho Ho'. by apply (app_sep_inj "/") in Hrest.
Qed.

(** X6.  The cache key identifies the user always, and the owner and
    repository as long as owners contain no slash; a slash may move
    between owner and repository without changing the key. *)
Theorem getCacheKey_injective :
  (∀ userId userId' owner owner' repo repo',
     getCacheKey userId owner repo = getCacheKey userId' owner' repo' →
     userId = userId'
     ∧ (lacks "/" owner → lacks "/" owner' → owner = owner' ∧ repo = repo'))
  ∧ (∀ userId owner mid repo,
       getCacheKey userId (owner +:+ "/" +:+ mid) repo
       = getCacheKey userId owner (mid +:+ "/" +:+ repo)).
Proof.
  split.
  - intros u u' o o' r r'. apply getCacheKey_inj.
  - intros u o m r. unfold getCacheKey.
    by rewrite (string_app_assoc o ("/" +:+ m) ("/" +:+ r)).
Qed.

Lemma getCacheKey_injective_witness :
  (42 : Z) = 42 ∧ "acme" = "acme" ∧ "widgets" = "widgets".
Proof.
  destruct (proj1 getCacheKey_injective 42 42 "acme" "acme" "widgets"
              "widgets" eq_refl) as [Hu Hrest].
  split; [exact Hu |].
  apply Hrest; unfold lacks; apply (bool_decide_unpack _); by vm_compute.
Defined.

(** Keys of one user start with that user's prefix, keys of other users
    do not. *)
Lemma getCacheKey_prefix (userId userId' : Z) (owner repo : string) :
  JsString.startsWith (getCacheKey userId' owner repo)
    (number_to_string userId +:+ ":")
  = bool_decide (userId = userId').
Proof.
  case_bool_decide as Hu.
  - subst userId'. unfold getCacheKey.
    change (number_to_string userId +:+ ":" +:+ owner +:+ "/" +:+ repo)
      with (number_to_string userId +:+ (":" +:+ (owner +:+ "/" +:+ repo))).
    replace (number_to_string userId +:+ (":" +:+ (owner +:+ "/" +:+ repo)))
      with ((number_to_string userId +:+ ":") +:+ (owner +:+ "/" +:+ repo))
      by apply string_app_assoc.
    apply startsWith_app.
  - apply not_true_is_false. intros Hpre. apply Hu.
    unfold getCacheKey in Hpre.
    apply (startsWith_upto ":") in Hpre;
      [| apply number_to_string_lacks_colon..].
    symmetry. by apply (inj pretty).
Qed.

End KeyFacts.

(** ** Permission cache: reads, clean-up and invalidation *)

Section CacheOpsFacts.
Import Js Types PermissionService PermissionCacheOps Aux CacheAux.
Implicit Types (c : JsMap.t CachedPermission) (k : string) (t now : Z).
Implicit Types (e : CachedPermission).

Lemma JsMap_wf_unique c k e e' :
  JsMap.wf c → (k, e) ∈ c → (k, e') ∈ c → e = e'.
Proof.
  unfold JsMap.wf. induction c as [|[k1 e1] c IH]; intros Hnd He He'.
  - by apply elem_of_nil in He.
  - rewrite fmap_cons in Hnd. apply NoDup_cons in Hnd as [Hfresh Hnd].
    assert (∀ x, (k1, x) ∈ c → False) as Hno.
    { intros x Hx. apply Hfresh. apply list_elem_of_fmap. by exists (k1, x). }
    apply elem_of_cons in He as [Heq|He];
      apply elem_of_cons in He' as [Heq'|He'].
    + by simplify_eq.
    + simplify_eq. by destruct (Hno e').
    + simplify_eq. by destruct (Hno e).
    + by apply IH.
Qed.

Lemma JsMap_elem_get c k e : JsMap.wf c → (k, e) ∈ c → JsMap.get c k = Some e.
Proof.
  intros Hwf Hin. destruct (JsMap.get c k) as [e'|] eqn:Hget.
  - apply JsMap_get_Some_elem in Hget. f_equal.
    by apply (JsMap_wf_unique c k).
  - apply JsMap_get_None in Hget. destruct Hget.
    apply list_elem_of_fmap. by exists (k, e).
Qed.

Lemma filter_ext_in {A} (P Q : A → Prop) `{!∀ x, Decision (P x)}
    `{!∀ x, Decision (Q x)} (l : list A) :
  (∀ x, x ∈ l → (P x ↔ Q x)) → filter P l = filter Q l.
Proof.
  induction l as [|a l IH]; intros Hext; [done |].
  assert (filter P l = filter Q l) as Htl
    by (apply IH; intros x Hx; apply Hext; by right).
  destruct (decide (P a)) as [Ha|Ha].
  - rewrite !filter_cons_True; [by rewrite Htl | | done].
    apply (Hext a); [left | done].
  - rewrite !filter_cons_False; [done | | done].
    intros Hq. apply Ha. apply (Hext a); [left | done].
Qed.

(** Reading a key in a filtered map. *)
Lemma JsMap_get_filter (P : string * CachedPermission → Prop)
    `{!∀ x, Decision (P x)} c k :
  (∀ e, (k, e) ∈ c → P (k, e)) →
  JsMap.get (filter P c) k = JsMap.get c k.
Proof.
  induction c as [|[k1 e1] c IH]; intros Hk; [done |].
  assert (JsMap.get (filter P c) k = JsMap.get c k) as Htl
    by (apply IH; intros e He; apply Hk; by right).
  destruct (decide (P (k1, e1))) as [Hp|Hp].
  - rewrite filter_cons_True by done. simpl. by rewrite Htl.
  - rewrite filter_cons_False by done. simpl.
    rewrite bool_decide_eq_false_2; [done |].
    intros ->. apply Hp, Hk. left.
Qed.

Lemma JsMap_get_filter_None (P : string * CachedPermission → Prop)
    `{!∀ x, Decision (P x)} c k :
  (∀ e, (k, e) ∈ c → ¬ P (k, e)) →
  JsMap.get (filter P c) k = None.
Proof.
  intros Hk. apply JsMap_get_None.
  intros ([k1 e1] & -> & [Hp Hin]%list_elem_of_filter)%list_elem_of_fmap.
  by apply (Hk e1).
Qed.

(** Deleting a list of keys one after the other. *)
Lemma fold_delete_filter (ks : list string) c :
  fold_left (λ acc k, JsMap.delete acc k) ks c
  = filter (λ kv, kv.1 ∉ ks) c.
Proof.
  revert c. induction ks as [|k ks IH]; intros c; simpl.
  - symmetry. induction c as [|kv c IHc]; [done |].
    rewrite filter_cons_True by apply not_elem_of_nil. by rewrite IHc.
  - rewrite IH. unfold JsMap.delete. rewrite list_filter_filter.
    apply list_filter_iff. intros kv. rewrite not_elem_of_cons. tauto.
Qed.

Lemma cleanup_fold now (l : list (string * CachedPermission)) c (n : Z) :
  fold_left (cleanup_step now) l (c, n)
  = (fold_left (λ acc k, JsMap.delete acc k)
       (filter (λ kv, now > cachedAt kv.2 + ttl kv.2) l).*1 c,
     n + Z.of_nat (length (filter (λ kv, now > cachedAt kv.2 + ttl kv.2) l))).
Proof.
  revert c n. induction l as [|kv l IH]; intros c n; simpl.
  - f_equal. lia.
  - unfold cleanup_step at 2.
    destruct (decide (now > cachedAt kv.2 + ttl kv.2)) as [He|He].
    + rewrite bool_decide_eq_true_2, filter_cons_True by done. simpl.
      rewrite IH. f_equal. lia.
    + rewrite bool_decide_eq_false_2, filter_cons_False by done. apply IH.
Qed.

Lemma length_filter_complement {A} (P : A → Prop) `{!∀ x, Decision (P x)}
    (l : list A) :
  (length (filter P l) + length (filter (λ x, ¬ P x) l) = length l)%nat.
Proof.
  induction l as [|a l IH]; [done |].
  destruct (decide (P a)) as [Ha|Ha].
  - rewrite filter_cons_True, filter_cons_False by tauto. simpl. lia.
  - rewrite filter_cons_False, filter_cons_True by tauto. simpl. lia.
Qed.

Lemma cacheCleanup_filter now c :
  JsMap.wf c →
  cacheCleanup now c
  = (filter (λ kv, ¬ now > cachedAt kv.2 + ttl kv.2) c,
     Z.of_nat (length (filter (λ kv, now > cachedAt kv.2 + ttl kv.2) c))).
Proof.
  intros Hwf. unfold cacheCleanup, JsMap.entries.
  rewrite cleanup_fold, fold_delete_filter. f_equal.
  apply filter_ext_in. intros [k e] Hin. simpl. split.
  - intros Hk He. apply Hk. apply list_elem_of_fmap. exists (k, e).
    split; [done |]. by apply list_elem_of_filter.
  - intros He ([k' e'] & Hkk & [He' Hin']%list_elem_of_filter)%list_elem_of_fmap.
    simpl in Hkk. subst k'.
    by rewrite (JsMap_wf_unique c k e e' Hwf Hin Hin') in He.
Qed.

(** X7.  One run of the periodic clean-up keeps exactly the entries that
    are not past their ttl, in their order; the number it logs is the
    number of entries it dropped; and at that moment or later every cache
    read answers as it would have without the clean-up. *)
Theorem cacheCleanup_transparent now c :
  JsMap.wf c →
  let r := cacheCleanup now c in
  r.1 = filter (λ kv, ¬ now > cachedAt kv.2 + ttl kv.2) c
  ∧ r.2 = JsMap.size c - JsMap.size r.1
  ∧ ∀ now' userId owner repo,
      now <= now' →
      (getCachedPermission now' r.1 userId owner repo).1
      = (getCachedPermission now' c userId owner repo).1.
Proof.
  intros Hwf r. subst r. rewrite (cacheCleanup_filter now c Hwf). simpl.
  split; [done |]. split.
  - unfold JsMap.size.
    pose proof (length_filter_complement
                  (λ kv : string * CachedPermission,
                     now > cachedAt kv.2 + ttl kv.2) c). lia.
  - intros now' userId owner repo Hle. unfold getCachedPermission.
    set (k := getCacheKey userId owner repo).
    destruct (JsMap.get c k) as [e|] eqn:Hget.
    + pose proof (JsMap_get_Some_elem _ _ _ Hget) as Hin.
      destruct (decide (now > cachedAt e + ttl e)) as [He|He].
      * rewrite JsMap_get_filter_None.
        -- rewrite bool_decide_eq_true_2 by lia. done.
        -- intros e' Hin'. simpl.
           rewrite <- (JsMap_wf_unique c k e e' Hwf Hin Hin'). tauto.
      * rewrite JsMap_get_filter, Hget.
        -- by case_bool_decide.
        -- intros e' Hin'. simpl.
           by rewrite <- (JsMap_wf_unique c k e e' Hwf Hin Hin').
    + rewrite JsMap_get_filter_None; [done |].
      intros e Hin. apply JsMap_get_None in Hget. destruct Hget.
      apply list_elem_of_fmap. by exists (k, e).
Qed.

Lemma invalidate_fold (userId : Z) (ks : list string) c (n : Z) :
  fold_left (invalidate_step userId) ks (c, n)
  = (fold_left (λ acc k, JsMap.delete acc k)
       (filter (λ k, JsString.startsWith k (number_to_string userId +:+ ":"))
          ks) c,
     n + Z.of_nat
           (length (filter
                      (λ k, JsString.startsWith k
                              (number_to_string userId +:+ ":")) ks))).
Proof.
  revert c n. induction ks as [|k ks IH]; intros c n; simpl.
  - f_equal. lia.
  - unfold invalidate_step at 2.
    destruct (JsString.startsWith k (number_to_string userId +:+ ":")) eqn:Hk.
    + rewrite filter_cons_True by (by rewrite Hk). simpl.
      rewrite IH. f_equal. lia.
    + rewrite filter_cons_False by (rewrite Hk; intros HF; exact HF). apply IH.
Qed.

Lemma invalidateUserCache_filter c (userId : Z) :
  invalidateUserCache c userId
  = (filter (λ kv, ¬ JsString.startsWith kv.1 (number_to_string userId +:+ ":"))
       c,
     Z.of_nat
       (length (filter (λ kv, JsString.startsWith kv.1
                                (number_to_string userId +:+ ":")) c))).
Proof.
  unfold invalidateUserCache. rewrite invalidate_fold, fold_delete_filter.
  f_equal.
  - apply filter_ext_in. intros [k e] Hin. simpl. split.
    + intros Hk Hpre. apply Hk. apply list_elem_of_filter.
      split; [done |]. apply list_elem_of_fmap. by exists (k, e).
    + intros Hpre [Hk _]%list_elem_of_filter. done.
  - rewrite Z.add_0_l. f_equal. induction c as [|[k e] c IH]; [done |].
    rewrite fmap_cons. simpl fst.
    destruct (JsString.startsWith k (number_to_string userId +:+ ":")) eqn:Hk.
    + rewrite !filter_cons_True by (simpl; by rewrite Hk). simpl. by rewrite IH.
    + rewrite !filter_cons_False by (simpl; rewrite Hk; intros HF; exact HF). done.
Qed.

(** X8.  After [invalidateUserCache] no repository of that user has a
    cache entry left, every entry of every other user reads as before,
    and the count that is logged is the number of entries removed. *)
Theorem invalidateUserCache_exact c (userId : Z) :
  let r := invalidateUserCache c userId in
  (∀ owner repo, JsMap.get r.1 (getCacheKey userId owner repo) = None)
  ∧ (∀ userId' owner repo,
       userId' ≠ userId →
       JsMap.get r.1 (getCacheKey userId' owner repo)
       = JsMap.get c (getCacheKey userId' owner repo))
  ∧ r.2 = JsMap.size c - JsMap.size r.1.
Proof.
  intros r. subst r. rewrite invalidateUserCache_filter. simpl.
  split; [| split].
  - intros owner repo. apply JsMap_get_filter_None. intros e _. simpl.
    rewrite getCacheKey_prefix, bool_decide_eq_true_2 by done.
    intros HF. apply HF. exact I.
  - intros userId' owner repo Hne. apply JsMap_get_filter. intros e _. simpl.
    rewrite getCacheKey_prefix, bool_decide_eq_false_2 by done.
    intros HF. exact HF.
  - unfold JsMap.size.
    pose proof (length_filter_complement
                  (λ kv : string * CachedPermission,
                     JsString.startsWith kv.1 (number_to_string userId +:+ ":"))
                  c). lia.
Qed.

Lemma invalidateUserCache_exact_witness :
  JsMap.get (invalidateUserCache (Examples.cache_of 3 (λ i, 1000 + i)) 1).1
    (getCacheKey 2 "acme" "widgets")
  = Some (Examples.entry_at 2 1002).2.
Proof.
  rewrite (proj1 (proj2 (invalidateUserCache_exact
                           (Examples.cache_of 3 (λ i, 1000 + i)) 1))
             2 "acme" "widgets"); [by vm_compute | lia].
Defined.

Lemma cacheCleanup_transparent_witness :
  (getCachedPermission 400000
     (cacheCleanup 301001 (Examples.cache_of 3 (λ i, 1000 + i))).1
     1 "acme" "widgets").1
  = (getCachedPermission 400000 (Examples.cache_of 3 (λ i, 1000 + i))
       1 "acme" "widgets").1.
Proof.
  refine (proj2 (proj2 (cacheCleanup_transparent 301001
                          (Examples.cache_of 3 (λ i, 1000 + i)) _))
            400000 1 "acme" "widgets" _).
  - unfold JsMap.wf. apply (bool_decide_unpack _). by vm_compute.
  - lia.
Defined.

(** *** Reads after writes *)

Lemma getCachedPermission_of_get now c userId owner repo e :
  JsMap.get c (getCacheKey userId owner repo) = Some e →
  ¬ now > cachedAt e + ttl e →
  getCachedPermission now c userId owner repo = (Some e, c).
Proof.
  intros Hget Hfresh. unfold getCachedPermission. rewrite Hget.
  by rewrite bool_decide_eq_false_2.
Qed.

(** X1.  An entry written by [setCachedPermission] is read back
    unchanged, without touching the cache, for as long as the clock has
    not passed [cachedAt + ttl]; a read after that moment misses and
    removes the entry. *)
Theorem setCachedPermission_then_get
    tCached tScan c userId username owner repo permission ttl now :
  let w := setCachedPermission tCached tScan c userId username owner repo
             permission ttl in
  let r := getCachedPermission now w.2 userId owner repo in
  (now <= tCached + default DEFAULT_TTL ttl → r = (Some w.1, w.2))
  ∧ (now > tCached + default DEFAULT_TTL ttl →
     r.1 = None ∧ JsMap.get r.2 (getCacheKey userId owner repo) = None).
Proof.
  intros w r.
  assert (Hget : JsMap.get w.2 (getCacheKey userId owner repo) = Some w.1)
    by apply JsMap_get_set_eq.
  split; intros Hnow.
  - apply getCachedPermission_of_get; [done |]. simpl. lia.
  - subst r. unfold getCachedPermission. rewrite Hget.
    rewrite bool_decide_eq_true_2 by (simpl; lia). simpl.
    split; [done | apply JsMap_get_delete_eq].
Qed.

Lemma setCachedPermission_then_get_witness :
  (getCachedPermission 301000
     (setCachedPermission 1000 1000 [] 42 "alice" "acme" "widgets"
        (Some "write") None).2 42 "acme" "widgets").1
  = Some {| userId := 42; username := "alice"; owner := "acme";
            repo := "widgets"; permission := Some "write";
            role := "Collaborator"; cachedAt := 1000; ttl := 300000 |}.
Proof.
  refine (f_equal fst
            (proj1 (setCachedPermission_then_get 1000 1000 [] 42 "alice"
                      "acme" "widgets" (Some "write") None 301000) _)).
  by vm_compute.
Defined.

(** What the resolver returns is what the cache holds for the key
    afterwards. *)
Lemma resolver_result_cached
    tGet tCached tScan provider c accessToken userId username owner repo
    forceRefresh :
  let r := getUserRepositoryPermission tGet tCached tScan provider c
             accessToken userId username owner repo forceRefresh in
  ∃ e, r.1 = Fulfilled e
       ∧ JsMap.get r.2 (getCacheKey userId owner repo) = Some e.
Proof.
  intros r. subst r. unfold getUserRepositoryPermission.
  destruct forceRefresh.
  - destruct (GithubOAuthService.getRepositoryPermission provider)
      as [[|p]|msg]; eexists; (split; [reflexivity | apply JsMap_get_set_eq]).
  - unfold getCachedPermission.
    destruct (JsMap.get c (getCacheKey userId owner repo)) as [cached|] eqn:Hget;
      [case_bool_decide; [| by exists cached] |];
      destruct (GithubOAuthService.getRepositoryPermission provider)
        as [[|p]|msg]; eexists; (split; [reflexivity | apply JsMap_get_set_eq]).
Qed.

(** X2.  The resolver never rejects, and whatever a resolution did, a
    later resolution of the same user and repository without
    [forceRefresh], made while the returned entry is within its ttl,
    returns that same entry, leaves the cache as it is and does not
    depend on the provider. *)
Theorem getUserRepositoryPermission_cache_hit
    tGet tCached tScan provider c accessToken userId username owner repo
    forceRefresh :
  let first := getUserRepositoryPermission tGet tCached tScan provider c
                 accessToken userId username owner repo forceRefresh in
  ∃ e, first.1 = Fulfilled e
       ∧ ∀ tGet' tCached' tScan' provider' accessToken' username',
           tGet' <= cachedAt e + ttl e →
           getUserRepositoryPermission tGet' tCached' tScan' provider'
             first.2 accessToken' userId username' owner repo false
           = (Fulfilled e, first.2).
Proof.
  intros first.
  destruct (resolver_result_cached tGet tCached tScan provider c accessToken
              userId username owner repo forceRefresh) as (e & He & Hget).
  exists e. split; [exact He |].
  intros tGet' tCached' tScan' provider' accessToken' username' Hfresh.
  unfold getUserRepositoryPermission.
  rewrite (getCachedPermission_of_get tGet' first.2 userId owner repo e);
    [done | exact Hget | lia].
Qed.

Lemma getUserRepositoryPermission_cache_hit_witness :
  getUserRepositoryPermission 200000 200000 200000 GithubOAuthService.Timeout
    (getUserRepositoryPermission 1000 1000 1000
       (GithubOAuthService.Responded (Some 200)
          (GithubOAuthService.BodyJson
             (GithubOAuthService.JObject (Some "write"))))
       [] "token" 42 "alice" "acme" "widgets" false).2
    "token" 42 "alice" "acme" "widgets" false
  = getUserRepositoryPermission 1000 1000 1000
      (GithubOAuthService.Responded (Some 200)
         (GithubOAuthService.BodyJson
            (GithubOAuthService.JObject (Some "write"))))
      [] "token" 42 "alice" "acme" "widgets" false.
Proof.
  destruct (getUserRepositoryPermission_cache_hit 1000 1000 1000
              (GithubOAuthService.Responded (Some 200)
                 (GithubOAuthService.BodyJson
                    (GithubOAuthService.JObject (Some "write"))))
              [] "token" 42 "alice" "acme" "widgets" false)
    as (e & He & Hhit).
  rewrite (Hhit 200000 200000 200000 GithubOAuthService.Timeout "token"
             "alice").
  - rewrite <- He. apply surjective_pairing.
  - injection He as <-. by vm_compute.
Defined.

(** X3.  After [invalidatePermissionCache] the next resolution goes to
    the provider even without [forceRefresh]: it is the resolution that
    [forceRefresh] would have made. *)
Theorem invalidate_then_resolve_queries
    tGet tCached tScan provider c accessToken userId username owner repo :
  getUserRepositoryPermission tGet tCached tScan provider
    (invalidatePermissionCache c userId owner repo)
    accessToken userId username owner repo false
  = getUserRepositoryPermission tGet tCached tScan provider
      (invalidatePermissionCache c userId owner repo)
      accessToken userId username owner repo true.
Proof.
  unfold getUserRepositoryPermission, getCachedPermission,
    invalidatePermissionCache.
  by rewrite JsMap_get_delete_eq.
Qed.

End CacheOpsFacts.

(** ** Permission cache: invariants and capacity *)

Section CacheInvariantFacts.
Import Js Types PermissionService PermissionCacheOps Aux CacheAux.
Implicit Types (c : JsMap.t CachedPermission) (k : string) (t now : Z).
Implicit Types (e : CachedPermission).

Lemma JsMap_elem_set c k e k' e' :
  (k', e') ∈ JsMap.set c k e → (k', e') = (k, e) ∨ (k', e') ∈ c.
Proof.
  induction c as [|[k1 e1] c IH]; simpl.
  - intros ->%list_elem_of_singleton. by left.
  - case_bool_decide as Hk.
    + subst k1. intros [Heq|Hin]%elem_of_cons; [by left | right; by right].
    + intros [Heq|Hin]%elem_of_cons; [right; rewrite Heq; left |].
      destruct (IH Hin) as [?|?]; [by left | right; by right].
Qed.

Lemma cache_inv_filter (P : string * CachedPermission → Prop)
    `{!∀ x, Decision (P x)} c :
  cache_inv c → cache_inv (filter P c).
Proof.
  intros [Hwf Hkeys]. split.
  - unfold JsMap.wf in *.
    apply (sublist_NoDup _ c.*1); [done | apply fmap_sublist, sublist_filter].
  - intros k ([k1 e1] & -> & [_ Hin]%list_elem_of_filter)%list_elem_of_fmap.
    apply Hkeys. apply list_elem_of_fmap. by exists (k1, e1).
Qed.

Lemma filed_filter (P : string * CachedPermission → Prop)
    `{!∀ x, Decision (P x)} c :
  filed c → filed (filter P c).
Proof. intros Hf k e [_ Hin]%list_elem_of_filter. by apply Hf. Qed.

Lemma cache_ok_filter (P : string * CachedPermission → Prop)
    `{!∀ x, Decision (P x)} c :
  cache_ok c → cache_ok (filter P c).
Proof.
  intros [Hinv Hf]. split; [by apply cache_inv_filter | by apply filed_filter].
Qed.

Lemma cache_ok_setCachedPermission
    tCached tScan c userId username owner repo permission ttl :
  cache_ok c → lacks "/" owner →
  cache_ok (setCachedPermission tCached tScan c userId username owner repo
              permission ttl).2.
Proof.
  intros [Hinv Hf] Ho. split; [by apply cache_inv_setCachedPermission |].
  intros k e Hin. unfold setCachedPermission in Hin. cbn [snd] in Hin.
  apply JsMap_elem_set in Hin as [[= -> ->]|Hin]; [done |].
  apply Hf. unfold evict_if_full in Hin.
  case_bool_decide; [| done].
  destruct (truthy _); [| done].
  unfold JsMap.delete in Hin. by apply list_elem_of_filter in Hin as [_ Hin].
Qed.

Lemma cache_ok_getCachedPermission now c userId owner repo :
  cache_ok c → cache_ok (getCachedPermission now c userId owner repo).2.
Proof.
  intros Hok. unfold getCachedPermission.
  destruct (JsMap.get c _); [| done].
  case_bool_decide; [| done]. by apply cache_ok_filter.
Qed.

Lemma cache_ok_resolver
    tGet tCached tScan provider c accessToken userId username owner repo
    forceRefresh :
  cache_ok c → lacks "/" owner →
  cache_ok (getUserRepositoryPermission tGet tCached tScan provider c
              accessToken userId username owner repo forceRefresh).2.
Proof.
  intros Hok Ho. unfold getUserRepositoryPermission.
  destruct forceRefresh.
  - destruct (GithubOAuthService.getRepositoryPermission provider)
      as [[|p]|msg]; by apply cache_ok_setCachedPermission.
  - pose proof (cache_ok_getCachedPermission tGet c userId owner repo Hok)
      as Hread.
    destruct (getCachedPermission tGet c userId owner repo) as [[cached|] c0];
      [done |].
    destruct (GithubOAuthService.getRepositoryPermission provider)
      as [[|p]|msg]; by apply cache_ok_setCachedPermission.
Qed.

Lemma cache_ok_empty : cache_ok [].
Proof.
  split; [apply cache_inv_empty |]. intros k e Hin.
  by apply elem_of_nil in Hin.
Qed.

(** X4.  The empty cache has pairwise distinct, non-empty keys and files
    every entry under the key of its own user, owner and repository with
    the role of its permission; every cache operation (set, read,
    resolution, single invalidation, user invalidation, clean-up) keeps
    it so, provided owners contain no slash. *)
Theorem cache_ok_invariant :
  cache_ok []
  ∧ ∀ c, cache_ok c →
      (∀ tCached tScan userId username owner repo permission ttl,
         lacks "/" owner →
         cache_ok (setCachedPermission tCached tScan c userId username owner
                     repo permission ttl).2)
      ∧ (∀ now userId owner repo,
           cache_ok (getCachedPermission now c userId owner repo).2)
      ∧ (∀ tGet tCached tScan provider accessToken userId username owner
           repo forceRefresh,
           lacks "/" owner →
           cache_ok (getUserRepositoryPermission tGet tCached tScan provider
                       c accessToken userId username owner repo
                       forceRefresh).2)
      ∧ (∀ userId owner repo,
           cache_ok (invalidatePermissionCache c userId owner repo))
      ∧ (∀ userId, cache_ok (invalidateUserCache c userId).1)
      ∧ (∀ now, cache_ok (cacheCleanup now c).1).
Proof.
  split; [apply cache_ok_empty |].
  intros c Hok. split; [| split; [| split; [| split; [| split]]]].
  - intros. by apply cache_ok_setCachedPermission.
  - intros. by apply cache_ok_getCachedPermission.
  - intros. by apply cache_ok_resolver.
  - intros. by apply cache_ok_filter.
  - intros. rewrite invalidateUserCache_filter. by apply cache_ok_filter.
  - intros. rewrite cacheCleanup_filter by apply Hok. by apply cache_ok_filter.
Qed.

Lemma cache_ok_invariant_witness :
  cache_ok (setCachedPermission 1000 1000 [] 42 "alice" "acme" "widgets"
              (Some "write") None).2.
Proof.
  apply (proj1 (proj2 cache_ok_invariant [] (proj1 cache_ok_invariant))).
  unfold lacks. apply (bool_decide_unpack _). by vm_compute.
Defined.

(** X5.  On a cache that satisfies the invariant, a resolution for an
    owner without a slash returns an entry of exactly the requested user,
    owner and repository, whose role is the one derived from its
    permission, whether it came from the cache or from the provider. *)
Theorem getUserRepositoryPermission_answers_request
    tGet tCached tScan provider c accessToken userId username owner repo
    forceRefresh :
  cache_ok c → lacks "/" owner →
  ∃ e, (getUserRepositoryPermission tGet tCached tScan provider c accessToken
          userId username owner repo forceRefresh).1 = Fulfilled e
       ∧ Types.userId e = userId ∧ Types.owner e = owner
       ∧ Types.repo e = repo
       ∧ role e = GithubOAuthService.mapPermissionToRole (permission e).
Proof.
  intros Hok Ho.
  destruct (resolver_result_cached tGet tCached tScan provider c accessToken
              userId username owner repo forceRefresh) as (e & He & Hget).
  exists e. split; [exact He |].
  pose proof (cache_ok_resolver tGet tCached tScan provider c accessToken
                userId username owner repo forceRefresh Hok Ho) as [_ Hf].
  apply JsMap_get_Some_elem in Hget.
  destruct (Hf _ _ Hget) as (Hkey & Hrole & Hoe).
  destruct (getCacheKey_inj _ _ _ _ _ _ Hkey) as [Hu Hrest].
  destruct (Hrest Ho Hoe) as [-> ->]. by subst userId.
Qed.

Lemma getUserRepositoryPermission_answers_request_witness :
  ∃ e, (getUserRepositoryPermission 1000 1000 1000 GithubOAuthService.Timeout
          [] "token" 42 "alice" "acme" "widgets" false).1 = Fulfilled e
       ∧ Types.userId e = 42 ∧ Types.owner e = "acme"
       ∧ Types.repo e = "widgets"
       ∧ role e = GithubOAuthService.mapPermissionToRole (permission e).
Proof.
  apply getUserRepositoryPermission_answers_request.
  - apply cache_ok_empty.
  - unfold lacks. apply (bool_decide_unpack _). by vm_compute.
Defined.

Lemma cache_of_inv (n : Z) (stamp : Z → Z) :
  cache_inv (Examples.cache_of n stamp).
Proof.
  assert ((Examples.cache_of n stamp).*1
          = (λ i, getCacheKey i "acme" "widgets") <$> seqZ 0 n) as Hkeys.
  { unfold Examples.cache_of. rewrite <- list_fmap_compose. done. }
  split.
  - unfold JsMap.wf. rewrite Hkeys. apply NoDup_fmap_2; [| apply NoDup_seqZ].
    intros i j Hij. by apply getCacheKey_inj in Hij as [? _].
  - rewrite Hkeys. intros k (i & -> & _)%list_elem_of_fmap.
    apply getCacheKey_truthy.
Qed.




(** The scan returns its initial pair when no entry is strictly older
    than the initial time, and otherwise the first entry, in insertion
    order, among those with the least [cachedAt]. *)
Lemma scan_first_oldest c k0 t0 :
  (fold_left scan_step c (k0, t0) = (k0, t0)
   ∧ ∀ kv, kv ∈ c → t0 <= cachedAt kv.2)
  ∨ ∃ before k e after,
      c = before ++ (k, e) :: after
      ∧ fold_left scan_step c (k0, t0) = (k, cachedAt e)
      ∧ cachedAt e < t0
      ∧ (∀ kv, kv ∈ before → cachedAt e < cachedAt kv.2)
      ∧ (∀ kv, kv ∈ after → cachedAt e <= cachedAt kv.2).
Proof.
  revert k0 t0. induction c as [|[k1 e1] c IH]; intros k0 t0.
  - left. split; [done |]. intros kv Hin. by apply elem_of_nil in Hin.
  - cbn [fold_left]. destruct (decide (cachedAt e1 < t0)) as [Hlt|Hge].
    + assert (scan_step (k0, t0) (k1, e1) = (k1, cachedAt e1)) as ->
        by (unfold scan_step; simpl; by rewrite bool_decide_eq_true_2).
      right.
      destruct (IH k1 (cachedAt e1))
        as [[Hsame Hall]|(before & k & e & after & -> & Hres & Hlt' & Hb & Ha)].
      * exists [], k1, e1, c. split; [done |]. split; [done |].
        split; [done |]. split; [| done].
        intros kv Hin. by apply elem_of_nil in Hin.
      * exists ((k1, e1) :: before), k, e, after. split; [done |].
        split; [done |]. split; [lia |]. split; [| done].
        intros kv [->|Hin]%elem_of_cons; [done | by apply Hb].
    + assert (scan_step (k0, t0) (k1, e1) = (k0, t0)) as ->
        by (unfold scan_step; simpl; by rewrite bool_decide_eq_false_2).
      destruct (IH k0 t0)
        as [[Hsame Hall]|(before & k & e & after & -> & Hres & Hlt' & Hb & Ha)].
      * left. split; [done |].
        intros kv [->|Hin]%elem_of_cons; [simpl; lia | by apply Hall].
      * right. exists ((k1, e1) :: before), k, e, after. split; [done |].
        split; [done |]. split; [done |]. split; [| done].
        intros kv [->|Hin]%elem_of_cons; [simpl; lia | by apply Hb].
Qed.

Lemma JsMap_delete_middle (before after : JsMap.t CachedPermission) k e :
  JsMap.wf (before ++ (k, e) :: after) →
  JsMap.delete (before ++ (k, e) :: after) k = before ++ after.
Proof.
  unfold JsMap.wf, JsMap.delete. rewrite fmap_app, fmap_cons. simpl fst.
  intros Hnd. apply NoDup_app in Hnd as (_ & Hdisj & Hnd).
  apply NoDup_cons in Hnd as [Hfresh _].
  rewrite filter_app, filter_cons_False by (simpl; tauto). f_equal.
  - fold (JsMap.delete before k). apply JsMap_delete_absent, JsMap_get_None.
    intros Hin. apply (Hdisj k Hin). left.
  - fold (JsMap.delete after k). by apply JsMap_delete_absent, JsMap_get_None.
Qed.

(** X10.  When some stored entry is strictly older than the clock value
    the scan starts from, a set call with a new key on a full cache
    removes exactly one entry: the first, in insertion order, of those
    with the least [cachedAt].  All other entries keep their order, the
    new entry goes to the end, and the size stays where it was. *)
Theorem setCachedPermission_evicts_first_oldest
    tCached tScan c userId username owner repo permission ttl :
  cache_inv c →
  JsMap.size c >= MAX_CACHE_SIZE →
  (∃ k e, (k, e) ∈ c ∧ cachedAt e < tScan) →
  JsMap.get c (getCacheKey userId owner repo) = None →
  let r := setCachedPermission tCached tScan c userId username owner repo
             permission ttl in
  ∃ before k e after,
    c = before ++ (k, e) :: after
    ∧ (∀ kv, kv ∈ before → cachedAt e < cachedAt kv.2)
    ∧ (∀ kv, kv ∈ after → cachedAt e <= cachedAt kv.2)
    ∧ r.2 = before ++ after ++ [(getCacheKey userId owner repo, r.1)]
    ∧ JsMap.size r.2 = JsMap.size c.
Proof.
  intros [Hwf Hkeys] Hfull (k0 & e0 & Hin0 & Hold) Hnew r.
  destruct (scan_first_oldest c "" tScan)
    as [[_ Hall]|(before & k & e & after & Hc & Hres & Hlt & Hb & Ha)].
  { specialize (Hall _ Hin0). simpl in Hall. lia. }
  exists before, k, e, after. split; [done |]. split; [done |].
  split; [done |].
  assert (Hk : k ∈ c.*1).
  { rewrite Hc, fmap_app, fmap_cons. apply elem_of_app. right. left. }
  assert (Hev : evict_if_full tScan c = before ++ after).
  { unfold evict_if_full, scan_oldest, JsMap.entries.
    rewrite bool_decide_eq_true_2, Hres by done. cbn [fst].
    rewrite (Hkeys k Hk). rewrite Hc. apply JsMap_delete_middle.
    by rewrite <- Hc. }
  assert (Hfresh : JsMap.get (before ++ after) (getCacheKey userId owner repo)
                   = None).
  { apply JsMap_get_None. apply JsMap_get_None in Hnew.
    rewrite Hc, fmap_app, fmap_cons in Hnew. rewrite fmap_app.
    rewrite !not_elem_of_app, not_elem_of_cons in *. tauto. }
  assert (Hr : r.2 = before ++ after
                     ++ [(getCacheKey userId owner repo, r.1)]).
  { subst r. unfold setCachedPermission. cbn [fst snd].
    rewrite Hev, (assoc_L (++)). by apply JsMap_set_new. }
  split; [exact Hr |].
  rewrite Hr, Hc. unfold JsMap.size. rewrite !length_app. simpl. lia.
Qed.

Lemma setCachedPermission_evicts_first_oldest_witness :
  JsMap.size
    (setCachedPermission 20000 20000 (Examples.cache_of 10000 (λ i, 1000 + i))
       10000 "user" "acme" "widgets" (Some "read") None).2
  = JsMap.size (Examples.cache_of 10000 (λ i, 1000 + i)).
Proof.
  destruct (setCachedPermission_evicts_first_oldest 20000 20000
              (Examples.cache_of 10000 (λ i, 1000 + i))
              10000 "user" "acme" "widgets" (Some "read") None)
    as (before & k & e & after & _ & _ & _ & _ & Hsize).
  - apply cache_of_inv.
  - unfold JsMap.size, Examples.cache_of, MAX_CACHE_SIZE.
    rewrite length_fmap, length_seqZ. lia.
  - exists (Examples.entry_at 0 1000).1, (Examples.entry_at 0 1000).2.
    split; [| by vm_compute].
    apply list_elem_of_fmap. exists 0. split; [done |].
    apply elem_of_seqZ. lia.
  - apply JsMap_get_None. unfold Examples.cache_of.
    rewrite <- list_fmap_compose.
    intros (i & Hkey & Hi%elem_of_seqZ)%list_elem_of_fmap.
    apply getCacheKey_inj in Hkey as [Hu _]. lia.
  - exact Hsize.
Defined.

End CacheInvariantFacts.

(** ** Session store: round trips and sweeps *)

Section SessionMoreFacts.
Import Js Types AuthMiddleware Aux.
Implicit Types (st : gmap string AuthSession) (token : string).

(** X11.  A session filed by [storeSession] is returned by [getSession]
    under the token handed out, with the store untouched, until the clock
    passes its [expiresAt]; after that the read reports nothing and drops
    it.  Filing a session changes no other token's entry. *)
Theorem storeSession_then_getSession (random : nat → Z) st
    (session : AuthSession) (now : Z) :
  let w := storeSession random st session in
  (now <= expiresAt session → getSession now w.2 w.1 = (Some session, w.2))
  ∧ (now > expiresAt session →
     (getSession now w.2 w.1).1 = None
     ∧ (getSession now w.2 w.1).2 !! w.1 = None)
  ∧ (∀ token, token ≠ w.1 → w.2 !! token = st !! token).
Proof.
  intros w. subst w. unfold storeSession. cbn [fst snd].
  set (tok := generateSessionToken random None).
  split; [| split].
  - intros Hnow. unfold getSession. rewrite lookup_insert_eq.
    by rewrite bool_decide_eq_false_2 by lia.
  - intros Hnow. unfold getSession. rewrite lookup_insert_eq.
    rewrite bool_decide_eq_true_2 by done. cbn [fst snd].
    split; [done | apply lookup_delete_eq].
  - intros token Hne. by apply lookup_insert_ne.
Qed.

Lemma storeSession_then_getSession_witness :
  (getSession 400 (storeSession (λ _, 2 ^ 52) ∅ (Examples.session_until 500)).2
     (storeSession (λ _, 2 ^ 52) ∅ (Examples.session_until 500)).1).1
  = Some (Examples.session_until 500).
Proof.
  refine (f_equal fst
            (proj1 (storeSession_then_getSession (λ _, 2 ^ 52) ∅
                      (Examples.session_until 500) 400) _)).
  by vm_compute.
Defined.

(** What the sweep leaves under each token. *)
Lemma sweep_lookup (now : Z) st token :
  sessions (clearExpiredSessions now st) !! token
  = match st !! token with
    | Some s => if decide (now > expiresAt s) then None else Some s
    | None => None
    end.
Proof.
  unfold clearExpiredSessions. rewrite sweep_fold. cbn [sessions fst].
  rewrite lookup_delete_all.
  destruct (decide (token ∈ (expired_in now (map_to_list st)).*1)) as [Hin|Hin];
    rewrite expired_in_keys in Hin.
  - destruct Hin as (s & -> & He). by rewrite decide_True.
  - destruct (st !! token) as [s|] eqn:Hs; [| done].
    rewrite decide_False; [done |]. intros He. apply Hin. eauto.
Qed.

Lemma sweep_count (now : Z) st :
  debug_log (clearExpiredSessions now st) = [] ↔
  ∀ token s, st !! token = Some s → ¬ now > expiresAt s.
Proof.
  unfold clearExpiredSessions. rewrite sweep_fold. cbn [debug_log snd].
  split.
  - intros Hlog token s Hs He.
    assert (length (expired_in now (map_to_list st)) = 0%nat) as Hlen.
    { destruct (length (expired_in now (map_to_list st))) eqn:E; [done |].
      rewrite bool_decide_eq_true_2 in Hlog by lia. done. }
    apply nil_length_inv in Hlen.
    assert ((token, s) ∈ expired_in now (map_to_list st)) as Hin.
    { unfold expired_in. apply list_elem_of_filter. split; [done |].
      by apply elem_of_map_to_list. }
    rewrite Hlen in Hin. by apply elem_of_nil in Hin.
  - intros Hlive.
    assert (expired_in now (map_to_list st) = []) as ->.
    { unfold expired_in.
      destruct (filter _ (map_to_list st)) as [|[k s] l] eqn:E; [done |].
      assert ((k, s) ∈ filter (λ e : string * AuthSession, now > expiresAt e.2)
                         (map_to_list st)) as Hin by (rewrite E; left).
      apply list_elem_of_filter in Hin as [He Hin].
      apply elem_of_map_to_list in Hin. by destruct (Hlive k s Hin). }
    done.
Qed.

(** X12.  A sweep changes no answer of [getSession] at that moment or
    later, so reads never depend on whether the background sweep has run;
    and a second sweep at the same moment removes nothing and logs
    nothing. *)
Theorem clearExpiredSessions_transparent (now : Z) st :
  (∀ now' token,
     now <= now' →
     (getSession now' (sessions (clearExpiredSessions now st)) token).1
     = (getSession now' st token).1)
  ∧ sessions (clearExpiredSessions now (sessions (clearExpiredSessions now st)))
    = sessions (clearExpiredSessions now st)
  ∧ debug_log (clearExpiredSessions now (sessions (clearExpiredSessions now st)))
    = [].
Proof.
  split; [| split].
  - intros now' token Hle. unfold getSession. rewrite sweep_lookup.
    destruct (st !! token) as [s|]; [| done].
    destruct (decide (now > expiresAt s)) as [He|He].
    + by rewrite bool_decide_eq_true_2 by lia.
    + by case_bool_decide.
  - apply map_eq. intros token. rewrite !sweep_lookup.
    destruct (st !! token) as [s|]; [| done].
    destruct (decide (now > expiresAt s)) as [He|He]; [done |].
    by rewrite decide_False.
  - apply sweep_count. intros token s. rewrite sweep_lookup.
    destruct (st !! token) as [s'|]; [| done].
    destruct (decide (now > expiresAt s')); [done |]. by intros [= <-].
Qed.

Lemma clearExpiredSessions_transparent_witness :
  (getSession 400 (sessions (clearExpiredSessions 100 Examples.two_sessions))
     "tokB").1
  = (getSession 400 Examples.two_sessions "tokB").1.
Proof.
  apply (proj1 (clearExpiredSessions_transparent 100 Examples.two_sessions)).
  lia.
Defined.

End SessionMoreFacts.

(** ** Authentication middleware and session endpoints *)

Section HttpFacts.
Import Js Types AuthMiddleware AuthHttp SessionRoutes.
Implicit Types (st : gmap string AuthSession) (req : request).

Lemma falsy_false (x : optstring) :
  JsString.falsy x = false ↔ ∃ tok, x = Some tok ∧ truthy tok = true.
Proof.
  destruct x as [tok|]; simpl.
  - rewrite negb_false_iff. split; [eauto |]. by intros (? & [= <-] & ?).
  - split; [done |]. by intros (? & ? & _).
Qed.

(** The middleware hands a request on only on finding an unexpired
    session under the request's token, and then leaves the store alone. *)
Lemma authenticationMiddleware_next now st req (s : AuthSession) :
  (authenticationMiddleware now st req).1 = Next s ↔
  ∃ tok, requestToken req = Some tok ∧ truthy tok = true
         ∧ st !! tok = Some s ∧ now <= expiresAt s.
Proof.
  unfold authenticationMiddleware.
  destruct (JsString.falsy (requestToken req)) eqn:Hf.
  - split; [done |]. intros (tok & Htok & Htruthy & _).
    assert (JsString.falsy (requestToken req) = false) as Hc
      by (apply falsy_false; eauto).
    congruence.
  - apply falsy_false in Hf as (tok & Htok & Htruthy). rewrite Htok.
    change (default "" (Some tok)) with tok. unfold getSession.
    destruct (st !! tok) as [s'|] eqn:Hs.
    + case_bool_decide as He; cbn [fst].
      * split; [done |].
        intros (tok' & Ht & _ & Hs' & Hle). simplify_eq. lia.
      * split.
        -- intros [= <-]. exists tok. split; [done |]. split; [done |].
           split; [done | lia].
        -- intros (tok' & Ht & _ & Hs' & _). by simplify_eq.
    + cbn [fst]. split; [done |].
      intros (tok' & Ht & _ & Hs' & _). by simplify_eq.
Qed.

Lemma authenticationMiddleware_next_store now st req (s : AuthSession) :
  (authenticationMiddleware now st req).1 = Next s →
  (authenticationMiddleware now st req).2 = st.
Proof.
  unfold authenticationMiddleware.
  destruct (JsString.falsy (requestToken req)); [done |].
  unfold getSession. destruct (st !! _) as [s'|]; [| done].
  by case_bool_decide.
Qed.

Lemma authenticationMiddleware_reply now st req :
  (∃ s, (authenticationMiddleware now st req).1 = Next s)
  ∨ (authenticationMiddleware now st req).1 = Reply 401.
Proof.
  unfold authenticationMiddleware.
  destruct (JsString.falsy (requestToken req)); [by right |].
  destruct (getSession now st _) as [[s|] st']; [left; by exists s | by right].
Qed.

Lemma authenticationMiddleware_shrinks now st req token (s : AuthSession) :
  (authenticationMiddleware now st req).2 !! token = Some s →
  st !! token = Some s.
Proof.
  unfold authenticationMiddleware.
  destruct (JsString.falsy (requestToken req)); [done |].
  unfold getSession. destruct (st !! default "" (requestToken req)) as [s'|];
    [| done].
  case_bool_decide; [| done]. cbn [snd].
  intros Hl. apply lookup_delete_Some in Hl as [_ Hl]. done.
Qed.

Lemma remove_first_unfold (pat s : string) :
  JsString.remove_first pat s
  = if JsString.startsWith s pat then JsString.drop (String.length pat) s
    else match s with
         | EmptyString => EmptyString
         | String c s' => String c (JsString.remove_first pat s')
         end.
Proof. by destruct s. Qed.

Lemma drop_app (p s : string) : JsString.drop (String.length p) (p +:+ s) = s.
Proof. induction p as [|a p IH]; [done |]. apply IH. Qed.

(** Cutting a leading pattern off. *)
Lemma remove_first_prefix (pat s : string) :
  JsString.remove_first pat (pat +:+ s) = s.
Proof. by rewrite remove_first_unfold, startsWith_app, drop_app. Qed.

Lemma requestToken_bearer (tok : string) (cookie : optstring) :
  truthy tok = true →
  requestToken {| authorization := Some ("Bearer " +:+ tok);
                  auth_cookie := cookie |} = Some tok.
Proof.
  intros Htok. unfold requestToken.
  cbn [authorization auth_cookie fmap option_fmap option_map].
  rewrite remove_first_prefix. unfold JsString.or_js. by rewrite Htok.
Qed.

(** X13.  The authentication middleware hands a request on, with session
    [s] attached, exactly when the request's token (the [Authorization]
    header with its first ["Bearer "] cut out or, failing that, the
    [auth-token] cookie) is non-empty and names a stored session that has
    not expired; every other request is answered 401.  A header
    ["Bearer <tok>"] carries the token [tok]; without a header the cookie
    is the token.  The middleware never adds a session to the store. *)
Theorem authenticationMiddleware_admits now st req :
  (∀ s, (authenticationMiddleware now st req).1 = Next s ↔
        ∃ tok, requestToken req = Some tok ∧ truthy tok = true
               ∧ st !! tok = Some s ∧ now <= expiresAt s)
  ∧ ((∃ s, (authenticationMiddleware now st req).1 = Next s)
     ∨ (authenticationMiddleware now st req).1 = Reply 401)
  ∧ (∀ token s, (authenticationMiddleware now st req).2 !! token = Some s →
                st !! token = Some s)
  ∧ (∀ tok cookie,
       truthy tok = true →
       requestToken {| authorization := Some ("Bearer " +:+ tok);
                       auth_cookie := cookie |} = Some tok)
  ∧ (∀ cookie,
       requestToken {| authorization := None; auth_cookie := cookie |}
       = cookie).
Proof.
  split; [intros s; apply authenticationMiddleware_next |].
  split; [apply authenticationMiddleware_reply |].
  split; [apply authenticationMiddleware_shrinks |].
  split; [apply requestToken_bearer | done].
Qed.

Lemma authenticationMiddleware_admits_witness :
  (authenticationMiddleware 100 Examples.two_sessions
     {| authorization := Some "Bearer tokB"; auth_cookie := None |}).1
  = Next (Examples.session_until 500).
Proof.
  apply (proj1 (authenticationMiddleware_admits 100 Examples.two_sessions
                  {| authorization := Some "Bearer tokB";
                     auth_cookie := None |})).
  exists "tokB". repeat split; by vm_compute.
Defined.

(** After the request's own token has been invalidated, the same
    request is refused at any time. *)
Lemma invalidated_request_refused now st req :
  JsString.falsy (requestToken req) = false →
  (authenticationMiddleware now (invalidate_request_token st req) req).1
  = Reply 401.
Proof.
  intros Hf. unfold invalidate_request_token, authenticationMiddleware.
  rewrite Hf. unfold getSession, invalidateSession.
  by rewrite lookup_delete_eq.
Qed.

Lemma next_not_falsy now st req (s : AuthSession) :
  (authenticationMiddleware now st req).1 = Next s →
  JsString.falsy (requestToken req) = false.
Proof.
  intros (tok & Htok & Htruthy & _)%authenticationMiddleware_next.
  apply falsy_false. eauto.
Qed.

(** X14.  [POST /logout] answers 200 exactly for requests the middleware
    admits; after such an answer the same request, with the same
    credentials, is refused with 401 at any later time; and logging out
    creates no session. *)
Theorem logout_ends_session now st req :
  (status (logout now st req) = 200
   ↔ ∃ s, (authenticationMiddleware now st req).1 = Next s)
  ∧ (status (logout now st req) = 200 →
     ∀ now', (authenticationMiddleware now' (sessions (logout now st req))
                req).1 = Reply 401)
  ∧ (∀ token s, sessions (logout now st req) !! token = Some s →
                st !! token = Some s).
Proof.
  unfold logout.
  pose proof (authenticationMiddleware_shrinks now st req) as Hshrink.
  destruct (authenticationMiddleware now st req) as [[s|code] st'] eqn:Hmw;
    cbn [status sessions fst snd] in *.
  - assert (JsString.falsy (requestToken req) = false) as Hf
      by (apply (next_not_falsy now st req s); by rewrite Hmw).
    split; [split; [eauto | done] |]. split.
    + intros _ now'. by apply invalidated_request_refused.
    + intros token s'. unfold invalidate_request_token. rewrite Hf.
      unfold invalidateSession. intros [_ Hl]%lookup_delete_Some.
      by apply Hshrink.
  - destruct (authenticationMiddleware_reply now st req) as [[s Hs]|H401];
      rewrite Hmw in *; cbn [fst] in *; [done |].
    injection H401 as ->.
    split; [split; [done | by intros [s ?]] |]. split; [done |].
    apply Hshrink.
Qed.

Lemma logout_ends_session_witness :
  (authenticationMiddleware 200
     (sessions (logout 100 Examples.two_sessions
                  {| authorization := Some "Bearer tokB";
                     auth_cookie := None |}))
     {| authorization := Some "Bearer tokB"; auth_cookie := None |}).1
  = Reply 401.
Proof.
  apply (proj1 (proj2 (logout_ends_session 100 Examples.two_sessions
                         {| authorization := Some "Bearer tokB";
                            auth_cookie := None |}))).
  by vm_compute.
Defined.

(** X15.  [POST /validate], for a request the middleware admits: when the
    provider no longer accepts the access token the answer is 401 and the
    session is removed, so that the same request is refused from then on;
    when the provider accepts it the answer is 200 and the store is as the
    middleware left it. *)
Theorem validate_drops_rejected_session now st req
    (identity : promise GitHubUser) (s : AuthSession) :
  (authenticationMiddleware now st req).1 = Next s →
  (GithubOAuthCalls.validateToken identity = false →
     status (validate now identity st req) = 401
     ∧ ∀ now', (authenticationMiddleware now'
                  (sessions (validate now identity st req)) req).1
               = Reply 401)
  ∧ (GithubOAuthCalls.validateToken identity = true →
     status (validate now identity st req) = 200
     ∧ sessions (validate now identity st req) = st).
Proof.
  intros Hnext. unfold validate.
  pose proof (authenticationMiddleware_next_store now st req s Hnext) as Hst.
  pose proof (next_not_falsy now st req s Hnext) as Hf.
  destruct (authenticationMiddleware now st req) as [v st'].
  cbn [fst snd] in *. subst v st'. split; intros ->; cbn [status sessions].
  - split; [done |]. intros now'. by apply invalidated_request_refused.
  - done.
Qed.

Lemma validate_drops_rejected_session_witness :
  status (validate 100 (Rejected "GitHub API error: 401")
            Examples.two_sessions
            {| authorization := Some "Bearer tokB"; auth_cookie := None |})
  = 401.
Proof.
  refine (proj1 (proj1 (validate_drops_rejected_session 100
                          Examples.two_sessions
                          {| authorization := Some "Bearer tokB";
                             auth_cookie := None |}
                          (Rejected "GitHub API error: 401")
                          (Examples.session_until 500) _) _)).
  - by vm_compute.
  - reflexivity.
Defined.

(** X16.  [POST /refresh], for a request the middleware admits under
    token [tok].  If the provider accepts the access token, the answer is
    200 with a fresh token; when that token differs from [tok] it names a
    session with the same user, access token and scopes that expires 24
    hours after the refresh, and [tok] names nothing any more; should the
    generator return [tok] itself, the refreshed session is deleted along
    with the old one.  If the provider rejects the access token, the
    answer is 401 and the session under [tok] stays in place. *)
Theorem refresh_replaces_session now tNew (random : nat → Z) st req
    (identity : promise GitHubUser) (s : AuthSession) (tok : string) :
  (authenticationMiddleware now st req).1 = Next s →
  requestToken req = Some tok →
  let r := refresh now tNew random identity st req in
  let new := generateSessionToken random None in
  (GithubOAuthCalls.validateToken identity = true →
     status r = 200 ∧ sessionToken r = Some new
     ∧ sessions r !! tok = None
     ∧ (new ≠ tok →
        sessions r !! new
        = Some {| accessToken := accessToken s; expiresIn := expiresIn s;
                  expiresAt := tNew + 24 * 60 * 60 * 1000;
                  user := user s; scopes := scopes s |})
     ∧ (∀ token, token ≠ new → token ≠ tok →
                 sessions r !! token = st !! token))
  ∧ (GithubOAuthCalls.validateToken identity = false →
     status r = 401 ∧ sessionToken r = None ∧ sessions r = st
     ∧ st !! tok = Some s).
Proof.
  intros Hnext Htok r new. subst r. unfold refresh.
  pose proof (authenticationMiddleware_next_store now st req s Hnext) as Hst.
  pose proof (next_not_falsy now st req s Hnext) as Hf.
  apply authenticationMiddleware_next in Hnext
    as (tok' & Htok' & Htruthy & Hs & Hle).
  assert (tok' = tok) as -> by congruence.
  destruct (authenticationMiddleware now st req) as [v st'] eqn:Hmw.
  cbn [fst snd] in *. subst st'.
  assert (v = Next s) as ->.
  { pose proof (proj2 (authenticationMiddleware_next now st req s)) as Hback.
    rewrite Hmw in Hback. apply Hback. eauto. }
  split; intros ->; cbn [status sessions sessionToken].
  - unfold invalidate_request_token, storeSession. rewrite Hf, Htok.
    change (default "" (Some tok)) with tok. cbn [fst snd]. fold new.
    unfold invalidateSession.
    split; [done |]. split; [done |].
    split; [apply lookup_delete_eq |]. split.
    + intros Hne. rewrite lookup_delete_ne by done. apply lookup_insert_eq.
    + intros token Hnew Hold.
      rewrite lookup_delete_ne, lookup_insert_ne by done. done.
  - done.
Qed.

Lemma refresh_replaces_session_witness :
  sessions (refresh 100 150 (λ _, 2 ^ 52) (Fulfilled Examples.alice)
              Examples.two_sessions
              {| authorization := Some "Bearer tokB"; auth_cookie := None |})
    !! "tokB"
  = None.
Proof.
  refine (proj1 (proj2 (proj2 (proj1
            (refresh_replaces_session 100 150 (λ _, 2 ^ 52)
               Examples.two_sessions
               {| authorization := Some "Bearer tokB"; auth_cookie := None |}
               (Fulfilled Examples.alice) (Examples.session_until 500)
               "tokB" _ _) _)))).
  - by vm_compute.
  - by vm_compute.
  - reflexivity.
Defined.

End HttpFacts.

(** ** Roles, gates and permission endpoints *)

Section RouteFacts.
Import Js Types GithubOAuthService PermissionService PermissionRoutes.
Import Hierarchy.

Lemma mapPermissionToRole_other (s : string) :
  s ≠ "admin" → s ≠ "maintain" → s ≠ "write" → s ≠ "read" →
  mapPermissionToRole (Some s) = "Denied".
Proof.
  intros H1 H2 H3 H4.
  do 9 (try (destruct s as [|[[] [] [] [] [] [] [] []] s];
             try reflexivity; try congruence)).
Qed.

Lemma mapPermissionToRole_denied (p : optstring) :
  mapPermissionToRole p = "Denied"
  ↔ p ∉ [Some "admin"; Some "maintain"; Some "write"; Some "read"].
Proof.
  rewrite !not_elem_of_cons. destruct p as [s|].
  - destruct (decide (s = "admin")) as [->|H1];
      [split; [done | by intros [? _]] |].
    destruct (decide (s = "maintain")) as [->|H2];
      [split; [done | by intros (_ & ? & _)] |].
    destruct (decide (s = "write")) as [->|H3];
      [split; [done | by intros (_ & _ & ? & _)] |].
    destruct (decide (s = "read")) as [->|H4];
      [split; [done | by intros (_ & _ & _ & ? & _)] |].
    split; [| intros _; by apply mapPermissionToRole_other].
    intros _. repeat split; try congruence. apply not_elem_of_nil.
  - split; [| done]. intros _. repeat split; try done. apply not_elem_of_nil.
Qed.

Lemma can_allows (p : optstring) (a : action) :
  can p (action_name a) = true →
  p ∈ [Some "admin"; Some "maintain"; Some "write"; Some "read"].
Proof.
  destruct p as [s|]; [| done]. unfold can, canPerformAction, includes.
  destruct a; simpl; intros H%bool_decide_eq_true;
    repeat (apply elem_of_cons in H as [->|H];
            [by repeat (first [left | right]) |]);
    by apply elem_of_nil in H.
Qed.

Lemma can_read_iff (p : optstring) :
  can p "read" = true
  ↔ p ∈ [Some "admin"; Some "maintain"; Some "write"; Some "read"].
Proof.
  split; [apply (can_allows p do_read) |].
  intros H.
  repeat (apply elem_of_cons in H as [->|H]; [by vm_compute |]).
  by apply elem_of_nil in H.
Qed.

(** X17.  The role of a permission is one of the four role names, and it
    is [Denied] exactly for the permissions other than admin, maintain,
    write and read (none, an unknown label, no label at all).  A
    permission with role [Denied] is allowed no action, and a permission
    allowed some action is not [Denied]. *)
Theorem mapPermissionToRole_fail_closed (p : optstring) :
  mapPermissionToRole p ∈ ["Admin"; "Maintainer"; "Collaborator"; "Denied"]
  ∧ (mapPermissionToRole p = "Denied"
     ↔ p ∉ [Some "admin"; Some "maintain"; Some "write"; Some "read"])
  ∧ (mapPermissionToRole p = "Denied" ↔
     ∀ a : action, can p (action_name a) = false).
Proof.
  split; [| split; [apply mapPermissionToRole_denied |]].
  - destruct (decide (p ∈ [Some "admin"; Some "maintain"; Some "write";
                           Some "read"])) as [H|H].
    + repeat (apply elem_of_cons in H as [->|H];
              [by repeat (first [left | right]) |]).
      by apply elem_of_nil in H.
    + apply mapPermissionToRole_denied in H. rewrite H.
      by repeat (first [left | right]).
  - rewrite mapPermissionToRole_denied. split.
    + intros Hp a. apply not_true_is_false. intros Hc. apply Hp.
      by apply (can_allows p a).
    + intros Hno Hp. apply can_read_iff in Hp.
      specialize (Hno do_read). simpl in Hno. congruence.
Qed.

(** X18.  The flags of a permission answer are nested: whoever may
    administer may maintain, whoever may maintain may write, whoever may
    write may read; a denied answer may not read; and for an entry whose
    role is the one derived from its permission, the role is [Denied]
    exactly when reading is refused. *)
Theorem check_response_nested (cachedPermission : CachedPermission) :
  let r := check_response cachedPermission in
  (canAdmin r = true → canMaintain r = true)
  ∧ (canMaintain r = true → canWrite r = true)
  ∧ (canWrite r = true → canRead r = true)
  ∧ (denied r = true → canRead r = false)
  ∧ (role cachedPermission = mapPermissionToRole (permission cachedPermission) →
     (r_role r = "Denied" ↔ canRead r = false)).
Proof.
  intros r. subst r. unfold check_response. simpl.
  assert (∀ (q : optstring) (x y : string),
            (∀ s, includes (default [] (prop actionPermissionMap x)) s = true →
                  includes (default [] (prop actionPermissionMap y)) s = true) →
            can q x = true → can q y = true) as Hmono.
  { intros [s|] x y Hxy; [apply Hxy | done]. }
  split; [| split; [| split; [| split]]].
  - intros ->%bool_decide_eq_true. by vm_compute.
  - apply Hmono. intros s H%bool_decide_eq_true. apply bool_decide_eq_true.
    simpl in *.
    repeat (apply elem_of_cons in H as [->|H];
            [by repeat (first [left | right]) |]).
    by apply elem_of_nil in H.
  - apply Hmono. intros s H%bool_decide_eq_true. apply bool_decide_eq_true.
    simpl in *.
    repeat (apply elem_of_cons in H as [->|H];
            [by repeat (first [left | right]) |]).
    by apply elem_of_nil in H.
  - intros ->%bool_decide_eq_true. by vm_compute.
  - intros ->. rewrite mapPermissionToRole_denied, <- can_read_iff.
    by destruct (can (permission cachedPermission) "read").
Qed.

Lemma check_response_nested_witness :
  canRead (check_response
             {| userId := 42; username := "alice"; owner := "acme";
                repo := "widgets"; permission := Some "write";
                role := "Collaborator"; cachedAt := 1000; ttl := 300000 |})
  = true.
Proof.
  apply (proj1 (proj2 (proj2 (check_response_nested
           {| userId := 42; username := "alice"; owner := "acme";
              repo := "widgets"; permission := Some "write";
              role := "Collaborator"; cachedAt := 1000; ttl := 300000 |})))).
  by vm_compute.
Defined.

(** X19.  End to end, a provider failure denies: when the cache holds no
    fresh entry for the pair and the provider request rejects, the
    permission endpoint answers 200 with permission none, role [Denied],
    the denied flag set and no capability flag set, and the can-action
    endpoint answers 200 with [can = false] for each of the four
    actions. *)
Theorem provider_failure_denies
    (tGet tCached tScan : Z) (provider : transport)
    (permissionCache : JsMap.t CachedPermission) (session : AuthSession)
    (owner repo : string) (refresh : optstring) (a : action) :
  truthy owner = true → truthy repo = true →
  is_rejected (makeGitHubRequest provider) = true →
  (getCachedPermission tGet permissionCache (id (user session)) owner repo).1
  = None →
  (∃ c, getPermission tGet tCached tScan provider permissionCache session
          owner repo refresh
        = (200,
           Some {| r_permission := Some "none"; r_role := "Denied";
                   canAdmin := false; canMaintain := false;
                   canWrite := false; canRead := false; denied := true |},
           c))
  ∧ (∃ c, canAction tGet tCached tScan provider permissionCache session
            owner repo (Some (action_name a))
          = (200, Some false, c)).
Proof.
  intros Ho Hr Hfail Hmiss.
  assert (∀ force, ∃ c,
    getUserRepositoryPermission tGet tCached tScan provider permissionCache
      (accessToken session) (id (user session)) (login (user session))
      owner repo force
    = (Fulfilled {| userId := id (user session);
                    username := login (user session);
                    owner := owner; repo := repo;
                    permission := Some "none"; role := "Denied";
                    cachedAt := tCached; ttl := DEFAULT_TTL |}, c)) as Hres.
  { intros force. unfold getUserRepositoryPermission.
    rewrite (getRepositoryPermission_rejected _ Hfail).
    destruct force; [by eexists |].
    destruct (getCachedPermission tGet permissionCache (id (user session))
                owner repo) as [[cached|] c']; [done | by eexists]. }
  split.
  - unfold getPermission. rewrite Ho, Hr. cbn [negb orb].
    destruct (Hres (bool_decide (refresh = Some "true"))) as [c ->].
    by exists c.
  - unfold canAction. rewrite Ho, Hr. cbn [negb orb].
    assert (JsString.falsy (Some (action_name a))
            || negb (includes ["read"; "write"; "maintain"; "admin"]
                       (default "" (Some (action_name a)))) = false) as ->
      by (by destruct a).
    destruct (Hres false) as [c ->]. exists c. by destruct a.
Qed.

Lemma provider_failure_denies_witness :
  ∃ c, canAction 1000 1000 1000 Timeout [] (Examples.session_until 5000)
         "acme" "widgets" (Some "read")
       = (200, Some false, c).
Proof.
  apply (proj2 (provider_failure_denies 1000 1000 1000 Timeout []
                  (Examples.session_until 5000) "acme" "widgets" None
                  do_read eq_refl eq_refl eq_refl eq_refl)).
Defined.

(** X20.  [repositoryPermissionMiddleware], for a required level among
    the five: without a session it answers 401, with a session but no
    resolved permission 403, and with a resolved level it lets the
    request pass exactly when that level's rank is at least the required
    rank, which is when [hasPermission] holds. *)
Theorem repositoryPermissionMiddleware_gate (required : level) :
  (∀ p, AuthHttp.repositoryPermissionMiddleware (level_name required) None p
        = AuthHttp.Refuse 401)
  ∧ (∀ s, AuthHttp.repositoryPermissionMiddleware (level_name required)
            (Some s) None = AuthHttp.Refuse 403)
  ∧ (∀ s (l : level),
       AuthHttp.repositoryPermissionMiddleware (level_name required) (Some s)
         (Some (level_name l))
       = if bool_decide (level_rank l >= level_rank required)
         then AuthHttp.Pass else AuthHttp.Refuse 403)
  ∧ (∀ s (l : level),
       AuthHttp.repositoryPermissionMiddleware (level_name required) (Some s)
         (Some (level_name l)) = AuthHttp.Pass
       ↔ hasPermission (level_name l) (level_name required) = true).
Proof.
  split; [done |]. split; [done |]. split.
  - intros s l. destruct required, l; by vm_compute.
  - intros s l. destruct required, l; by vm_compute.
Qed.

(** X21.  [getUserEmail] returns an address only from an entry that is
    both primary and verified, the first such entry of the provider's
    list, and returns nothing when the request fails. *)
Theorem getUserEmail_verified_primary
    (emails : promise (list GithubOAuthCalls.email_entry)) (a : string) :
  GithubOAuthCalls.getUserEmail emails = Some a →
  ∃ before e after,
    emails = Fulfilled (before ++ e :: after)
    ∧ GithubOAuthCalls.email e = a
    ∧ GithubOAuthCalls.primary e = true
    ∧ GithubOAuthCalls.verified e = true
    ∧ ∀ x, x ∈ before →
           GithubOAuthCalls.primary x && GithubOAuthCalls.verified x = false.
Proof.
  unfold GithubOAuthCalls.getUserEmail. destruct emails as [l|msg]; [| done].
  assert (∀ e, GithubOAuthCalls.find_primary l = Some e →
            ∃ before after,
              l = before ++ e :: after
              ∧ GithubOAuthCalls.primary e && GithubOAuthCalls.verified e = true
              ∧ ∀ x, x ∈ before →
                     GithubOAuthCalls.primary x && GithubOAuthCalls.verified x
                     = false) as Hfind.
  { induction l as [|x l IH]; intros e; simpl; [done |].
    destruct (GithubOAuthCalls.primary x && GithubOAuthCalls.verified x) eqn:Hx.
    - intros [= <-]. exists [], l. split; [done |]. split; [done |].
      intros y Hy. by apply elem_of_nil in Hy.
    - intros (before & after & -> & He & Hb)%IH.
      exists (x :: before), after. split; [done |]. split; [done |].
      intros y [->|Hy]%elem_of_cons; [done | by apply Hb]. }
  destruct (GithubOAuthCalls.find_primary l) as [e|] eqn:He; [| done].
  destruct (truthy (GithubOAuthCalls.email e)); [| done]. intros [= <-].
  destruct (Hfind e eq_refl) as (before & after & -> & Hpv & Hb).
  apply andb_true_iff in Hpv as [Hp Hv]. by exists before, e, after.
Qed.

Lemma getUserEmail_verified_primary_witness :
  ∃ before e after,
    Fulfilled
      [ {| GithubOAuthCalls.email := "a@work.example";
           GithubOAuthCalls.primary := false;
           GithubOAuthCalls.verified := true |};
        {| GithubOAuthCalls.email := "a@home.example";
           GithubOAuthCalls.primary := true;
           GithubOAuthCalls.verified := true |} ]
    = Fulfilled (before ++ e :: after)
    ∧ GithubOAuthCalls.email e = "a@home.example"
    ∧ GithubOAuthCalls.primary e = true
    ∧ GithubOAuthCalls.verified e = true
    ∧ ∀ x, x ∈ before →
           GithubOAuthCalls.primary x && GithubOAuthCalls.verified x = false.
Proof.
  apply getUserEmail_verified_primary. reflexivity.
Defined.

End RouteFacts.

(** ** OAuth handshake *)

Section FlowFacts.
Import Js Types AuthMiddleware AuthRoutes.
Implicit Types (st : gmap string OAuthState) (ss : gmap string AuthSession).

(** X22.  [GET /login] without a configured client id answers 500 and
    leaves the state store alone.  With one it answers 200 and files the
    nonce: from then on the nonce validates exactly while at most ten
    minutes have passed since the login, its redirect target is the
    requested one, or ["/"] when none was given, and every other nonce is
    as before. *)
Theorem login_issues_state (now : Z) (clientId : option string)
    (nonce : string) (redirect : option string) st :
  let r := login now clientId nonce redirect st in
  (present clientId = false → r = (500, st))
  ∧ (present clientId = true →
     r.1 = 200
     ∧ (∀ now', (validateState now' r.2 nonce).1
                = bool_decide (now' - now <= STATE_EXPIRY))
     ∧ getRedirectUrl r.2 nonce = Some (or_else redirect "/")
     ∧ ∀ other, other ≠ nonce → r.2 !! other = st !! other).
Proof.
  intros r. subst r. unfold login. split; intros ->; [done |].
  cbn [fst snd]. split; [done |]. split; [| split].
  - intros now'. unfold validateState. rewrite lookup_insert_eq.
    cbn [createdAt]. case_bool_decide as He.
    + by rewrite bool_decide_eq_false_2 by lia.
    + by rewrite bool_decide_eq_true_2 by lia.
  - unfold getRedirectUrl. by rewrite lookup_insert_eq.
  - intros other Hne. by apply lookup_insert_ne.
Qed.

Lemma login_issues_state_witness :
  (validateState 600000 (login 0 (Some "Iv1.client") "s1" None ∅).2 "s1").1
  = bool_decide (600000 - 0 <= STATE_EXPIRY).
Proof.
  apply (proj1 (proj2 (proj2 (login_issues_state 0 (Some "Iv1.client") "s1"
                                None ∅) eq_refl))).
Defined.

(** X23.  The callback creates a session only when it answers 200.  An
    answer other than 200 leaves the session store as it was and carries
    no token; in particular a callback whose state is not in the state
    store answers 400 and changes nothing.  An answer of 200 means the
    state validated, the code exchange and the identity lookup succeeded;
    it carries the generated token, under which the store then holds a
    session with the exchanged access token, the looked-up user, the
    scopes split at commas and an expiry 24 hours after creation, and
    which [getSession] returns until that expiry; the state is consumed. *)
Theorem callback_creates_session (tValidate tSession : Z) (random : nat → Z)
    (secret : option string) (exchange : promise token_response)
    (identity : promise GitHubUser) (q : callback_query) st ss :
  let o := callback tValidate tSession random secret exchange identity q
             st ss in
  let tok := generateSessionToken random None in
  (status o ≠ 200 → sessions o = ss ∧ sessionToken o = None)
  ∧ (∀ nonce, state q = Some nonce → st !! nonce = None →
              status o = 400 ∧ states o = st)
  ∧ (status o = 200 →
     ∃ nonce tokenResponse user sc,
       state q = Some nonce
       ∧ exchange = Fulfilled tokenResponse ∧ identity = Fulfilled user
       ∧ scope tokenResponse = Some sc
       ∧ (validateState tValidate st nonce).1 = true
       ∧ states o !! nonce = None
       ∧ sessionToken o = Some tok
       ∧ sessions o
         = <[tok := {| accessToken := access_token tokenResponse;
                       expiresIn := 3600;
                       expiresAt := tSession + 24 * 60 * 60 * 1000;
                       user := user;
                       scopes := split ","%char sc |}]> ss
       ∧ ∀ now, now <= tSession + 24 * 60 * 60 * 1000 →
                (getSession now (sessions o) tok).1
                = Some {| accessToken := access_token tokenResponse;
                          expiresIn := 3600;
                          expiresAt := tSession + 24 * 60 * 60 * 1000;
                          user := user;
                          scopes := split ","%char sc |})
  ∧ (status o = 200 ∨ status o = 400 ∨ status o = 500).
Proof.
  intros o tok. subst o. unfold callback.
  destruct (present (error q)).
  { cbn [status sessions sessionToken states].
    split; [done |]. split; [done |]. split; [done | auto]. }
  destruct (state q) as [nonce|] eqn:Hq.
  2:{ cbn [present]. rewrite orb_true_r.
      cbn [status sessions sessionToken states].
      split; [done |]. split; [done |]. split; [done | auto]. }
  destruct (negb (present (code q)) || negb (present (Some nonce))).
  { cbn [status sessions sessionToken states].
    split; [done |]. split; [done |]. split; [done | auto]. }
  change (default "" (Some nonce)) with nonce.
  destruct (validateState tValidate st nonce) as [[|] st'] eqn:Ev.
  2:{ cbn [status sessions sessionToken states].
      split; [done |]. split; [| split; [done | auto]].
      intros nonce' [= <-] Hnone. split; [done |].
      unfold validateState in Ev. rewrite Hnone in Ev. by injection Ev as <-. }
  assert (Hok : (validateState tValidate st nonce).1 = true) by (by rewrite Ev).
  assert (Hnotnone : ∀ nonce', Some nonce = Some nonce' →
                               st !! nonce' = None → False).
  { intros nonce' [= <-] Hnone.
    apply validateState_true in Hok as (e & He & _). congruence. }
  destruct (negb (present secret)).
  { cbn [status sessions sessionToken states].
    split; [done |]. split; [| split; [done | auto]].
    intros nonce' Hn Hnone. by destruct (Hnotnone nonce' Hn Hnone). }
  destruct exchange as [tokenResponse|msg].
  2:{ cbn [status sessions sessionToken states].
      split; [done |]. split; [| split; [done | auto]].
      intros nonce' Hn Hnone. by destruct (Hnotnone nonce' Hn Hnone). }
  destruct identity as [user|msg].
  2:{ cbn [status sessions sessionToken states].
      split; [done |]. split; [| split; [done | auto]].
      intros nonce' Hn Hnone. by destruct (Hnotnone nonce' Hn Hnone). }
  destruct (scope tokenResponse) as [sc|] eqn:Hsc.
  2:{ cbn [status sessions sessionToken states].
      split; [done |]. split; [| split; [done | auto]].
      intros nonce' Hn Hnone. by destruct (Hnotnone nonce' Hn Hnone). }
  unfold storeSession. cbn [status sessions sessionToken states fst snd].
  fold tok. split; [done |]. split.
  { intros nonce' Hn Hnone. by destruct (Hnotnone nonce' Hn Hnone). }
  split; [| auto]. intros _.
  exists nonce, tokenResponse, user, sc.
  split; [done |]. split; [done |]. split; [done |]. split; [done |].
  split; [done |]. split; [apply lookup_delete_eq |]. split; [done |].
  split; [done |].
  intros now Hnow. unfold getSession. rewrite lookup_insert_eq.
  cbn [expiresAt]. by rewrite bool_decide_eq_false_2 by lia.
Qed.

Lemma callback_creates_session_witness :
  status (callback 1000 1000 (λ _, 2 ^ 52) (Some "secret")
            (Fulfilled {| access_token := "gho_x"; scope := Some "repo" |})
            (Fulfilled Examples.alice)
            {| code := Some "abc"; state := Some "unknown";
               error := None; error_description := None |}
            Examples.one_state ∅)
  = 400.
Proof.
  refine (proj1 (proj1 (proj2 (callback_creates_session 1000 1000
            (λ _, 2 ^ 52) (Some "secret")
            (Fulfilled {| access_token := "gho_x"; scope := Some "repo" |})
            (Fulfilled Examples.alice)
            {| code := Some "abc"; state := Some "unknown";
               error := None; error_description := None |}
            Examples.one_state ∅)) "unknown" eq_refl _)).
  by vm_compute.
Defined.

End FlowFacts.

(** ** Version arithmetic *)

Section VersionFacts.
Import Js ChangesetService CacheAux VersionAux.

Lemma pretty_N_go_lacks (c : ascii) (x : N) (s : string) :
  (∀ d, c ≠ pretty_N_char d) → lacks c s → lacks c (pretty_N_go x s).
Proof.
  intros Hc. revert s. induction (N.lt_wf_0 x) as [x _ IH]; intros s Hs.
  assert (x = 0 ∨ 0 < x)%N as [->|Hx] by lia.
  - by rewrite pretty_N_go_0.
  - rewrite pretty_N_go_step by done. apply IH.
    + by apply N.div_lt.
    + apply lacks_cons. split; [apply Hc | done].
Qed.

Lemma pretty_N_lacks_dot (n : N) : lacks "." (pretty n).
Proof.
  unfold pretty, pretty_N. case_decide.
  - unfold lacks. simpl. rewrite not_elem_of_cons.
    split; [done | apply not_elem_of_nil].
  - apply pretty_N_go_lacks.
    + intros d. unfold pretty_N_char. by repeat case_match.
    + unfold lacks. simpl. apply not_elem_of_nil.
Qed.

Lemma number_to_string_of_N (n : N) : number_to_string (Z.of_N n) = pretty n.
Proof. by destruct n. Qed.

Lemma digit_value_char (x : N) :
  (x < 10)%N → digit_value (pretty_N_char x) = Some (Z.of_N x).
Proof.
  intros Hx.
  assert (x = 0 ∨ x = 1 ∨ x = 2 ∨ x = 3 ∨ x = 4 ∨ x = 5 ∨ x = 6 ∨ x = 7
          ∨ x = 8 ∨ x = 9)%N as Hcases by lia.
  repeat (destruct Hcases as [->|Hcases]; [by vm_compute |]).
  subst x. by vm_compute.
Qed.

(** Reading back the digits that [pretty] wrote in front of [s]. *)
Lemma digits_pretty (n : N) :
  ∃ k : nat, ∀ acc s,
    digits acc (pretty_N_go n s)
    = digits (acc * 10 ^ Z.of_nat k + Z.of_N n) s.
Proof.
  induction (N.lt_wf_0 n) as [n _ IH].
  assert (n = 0 ∨ 0 < n)%N as [->|Hn] by lia.
  - exists 0%nat. intros acc s. rewrite pretty_N_go_0. f_equal. simpl. lia.
  - destruct (IH (n `div` 10)%N) as [k Hk]; [by apply N.div_lt |].
    exists (S k). intros acc s.
    rewrite pretty_N_go_step, Hk by done. cbn [digits].
    rewrite digit_value_char by (by apply N.mod_lt).
    f_equal. rewrite Nat2Z.inj_succ, Z.pow_succ_r by lia.
    pose proof (N.div_mod n 10 ltac:(done)) as Hdm.
    assert (Z.of_N n = 10 * Z.of_N (n `div` 10) + Z.of_N (n `mod` 10)) as ->.
    { rewrite Hdm at 1. by rewrite N2Z.inj_add, N2Z.inj_mul. }
    ring.
Qed.

Lemma pretty_N_go_head (n : N) (s : string) :
  (0 < n)%N →
  ∃ d s', (d < 10)%N ∧ pretty_N_go n s = String (pretty_N_char d) s'.
Proof.
  revert s. induction (N.lt_wf_0 n) as [n _ IH]; intros s Hn.
  rewrite pretty_N_go_step by done.
  destruct (N.eq_0_gt_0_cases (n `div` 10)) as [->|Hq].
  - rewrite pretty_N_go_0. exists (n `mod` 10)%N, s.
    split; [by apply N.mod_lt | done].
  - apply IH; [by apply N.div_lt | done].
Qed.

Lemma parseInt_digit_head (d : N) (s : string) :
  (d < 10)%N →
  parseInt (String (pretty_N_char d) s)
  = Some (digits 0 (String (pretty_N_char d) s)).
Proof.
  intros Hd.
  assert (d = 0 ∨ d = 1 ∨ d = 2 ∨ d = 3 ∨ d = 4 ∨ d = 5 ∨ d = 6 ∨ d = 7
          ∨ d = 8 ∨ d = 9)%N as Hcases by lia.
  repeat (destruct Hcases as [->|Hcases]; [done |]).
  by subst d.
Qed.

Lemma digits_stops (acc : Z) (rest : string) :
  stops rest → digits acc rest = acc.
Proof. destruct rest as [|c rest]; [done |]. simpl. by intros ->. Qed.

Lemma pretty_N_go_app (n : N) (s rest : string) :
  pretty_N_go n s +:+ rest = pretty_N_go n (s +:+ rest).
Proof.
  revert s. induction (N.lt_wf_0 n) as [n _ IH]; intros s.
  assert (n = 0 ∨ 0 < n)%N as [->|Hn] by lia.
  - by rewrite !pretty_N_go_0.
  - rewrite !(pretty_N_go_step n) by done.
    rewrite IH by (by apply N.div_lt). done.
Qed.

(** [parseInt] reads the decimal rendering of a natural number back,
    whatever non-digit text follows it. *)
Lemma parseInt_pretty (n : N) (rest : string) :
  stops rest → parseInt (pretty n +:+ rest) = Some (Z.of_N n).
Proof.
  intros Hrest. unfold pretty, pretty_N. case_decide as Hn.
  - subst n.
    change (parseInt (String (pretty_N_char 0) rest) = Some (Z.of_N 0)).
    rewrite (parseInt_digit_head 0 rest) by done. f_equal.
    change (digits 0 (String (pretty_N_char 0) rest)) with (digits 0 rest).
    by apply digits_stops.
  - assert (0 < n)%N as Hpos by lia.
    destruct (digits_pretty n) as [k Hk].
    rewrite pretty_N_go_app, string_app_nil.
    destruct (pretty_N_go_head n rest Hpos) as (d & s' & Hd & Hhead).
    rewrite Hhead. rewrite parseInt_digit_head by done.
    rewrite <- Hhead, Hk.
    rewrite digits_stops by done. f_equal; lia.
Qed.

(** *** Splitting at a separator *)

Lemma split_nonempty (sep : ascii) (s : string) :
  ∃ w ws, AuthRoutes.split sep s = w :: ws.
Proof.
  induction s as [|c s (w & ws & IH)]; simpl; [by eexists _, _ |].
  case_bool_decide; [by eexists _, _ |]. rewrite IH. by eexists _, _.
Qed.

Lemma split_lacks (sep : ascii) (a : string) :
  lacks sep a → AuthRoutes.split sep a = [a].
Proof.
  induction a as [|c a IH]; [done |].
  intros [Hne Ha]%lacks_cons. simpl.
  rewrite bool_decide_eq_false_2 by congruence. by rewrite IH.
Qed.

Lemma split_app_sep (sep : ascii) (a b : string) :
  lacks sep a →
  AuthRoutes.split sep (a +:+ String sep b) = a :: AuthRoutes.split sep b.
Proof.
  induction a as [|c a IH].
  - intros _. rewrite string_app_nil. simpl.
    by rewrite bool_decide_eq_true_2.
  - intros [Hne Ha]%lacks_cons. rewrite string_app_cons. simpl.
    rewrite bool_decide_eq_false_2 by congruence. by rewrite IH.
Qed.

Lemma split_app_other (sep c : ascii) (a x : string) :
  lacks sep a → c ≠ sep →
  ∃ w ws, AuthRoutes.split sep (a +:+ String c x) = (a +:+ String c w) :: ws.
Proof.
  intros Ha Hc. induction a as [|c0 a IH].
  - rewrite string_app_nil. simpl. rewrite bool_decide_eq_false_2 by done.
    destruct (split_nonempty sep x) as (w & ws & ->). by exists w, ws.
  - apply lacks_cons in Ha as [Hne Ha]. destruct (IH Ha) as (w & ws & Hs).
    rewrite string_app_cons. simpl.
    rewrite bool_decide_eq_false_2 by congruence. rewrite Hs.
    by exists w, ws.
Qed.

Lemma string_app_single (c : ascii) (x : string) :
  String c EmptyString +:+ x = String c x.
Proof. done. Qed.

(** *** Bumping *)

(** The version that [calculateVersion] writes for the three numbers it
    has read. *)
Lemma calculateVersion_parts (v bump : string) (major minor patch : number) :
  let parts := parseInt <$> AuthRoutes.split "." v in
  default None (parts !! 0%nat) = major →
  default (Some 0) (parts !! 1%nat) = minor →
  default (Some 0) (parts !! 2%nat) = patch →
  calculateVersion v "major" = show (succ major) +:+ ".0.0"
  ∧ calculateVersion v "minor"
    = show major +:+ "." +:+ show (succ minor) +:+ ".0"
  ∧ (bump ≠ "major" → bump ≠ "minor" →
     calculateVersion v bump
     = show major +:+ "." +:+ show minor +:+ "." +:+ show (succ patch)).
Proof.
  intros parts <- <- <-. subst parts. unfold calculateVersion.
  generalize (parseInt <$> AuthRoutes.split "." v). intros parts.
  split; [done |]. split; [done |].
  generalize (show (default None (parts !! 0%nat))).
  generalize (show (succ (default None (parts !! 0%nat)))).
  generalize (show (default (Some 0) (parts !! 1%nat))).
  generalize (show (succ (default (Some 0) (parts !! 1%nat)))).
  generalize (show (succ (default (Some 0) (parts !! 2%nat)))).
  intros s1 s2 s3 s4 s5 H1 H2.
  do 6 (try (destruct bump as [|[[] [] [] [] [] [] [] []] bump];
             try reflexivity; try congruence)).
Qed.

Lemma number_to_string_lacks_dot (n : Z) : 0 <= n → lacks "." (number_to_string n).
Proof.
  intros Hn. rewrite <- (Z2N.id n), number_to_string_of_N by done.
  apply pretty_N_lacks_dot.
Qed.

Lemma parseInt_number (n : Z) (rest : string) :
  0 <= n → stops rest → parseInt (number_to_string n +:+ rest) = Some n.
Proof.
  intros Hn Hrest. rewrite <- (Z2N.id n) at 1 by done.
  rewrite number_to_string_of_N, parseInt_pretty by done.
  by rewrite Z2N.id.
Qed.

(** X24.  For a version written as three decimal numbers [M.m.p], each
    below [2^53], a major bump gives [(M+1).0.0], a minor bump
    [M.(m+1).0], and a patch bump, like every bump type other than major
    and minor, [M.m.(p+1)]. *)
Theorem calculateVersion_bumps (M m p : Z) (bump : string) :
  0 <= M < 2 ^ 53 → 0 <= m < 2 ^ 53 → 0 <= p < 2 ^ 53 →
  let v := number_to_string M +:+ "." +:+ number_to_string m +:+ "."
           +:+ number_to_string p in
  calculateVersion v "major" = number_to_string (M + 1) +:+ ".0.0"
  ∧ calculateVersion v "minor"
    = number_to_string M +:+ "." +:+ number_to_string (m + 1) +:+ ".0"
  ∧ (bump ≠ "major" → bump ≠ "minor" →
     calculateVersion v bump
     = number_to_string M +:+ "." +:+ number_to_string m +:+ "."
       +:+ number_to_string (p + 1)).
Proof.
  intros [HM _] [Hm _] [Hp _] v.
  assert (AuthRoutes.split "." v
          = [number_to_string M; number_to_string m; number_to_string p])
    as Hsplit.
  { subst v. rewrite !string_app_single.
    rewrite split_app_sep by (by apply number_to_string_lacks_dot).
    rewrite split_app_sep by (by apply number_to_string_lacks_dot).
    by rewrite split_lacks by (by apply number_to_string_lacks_dot). }
  assert (∀ n, 0 <= n → parseInt (number_to_string n) = Some n) as Hparse.
  { intros n Hn. rewrite <- (parseInt_number n "" Hn I).
    f_equal. generalize (number_to_string n). intros s.
    induction s as [|c s IH]; [done |]. rewrite string_app_cons. by f_equal. }
  apply (calculateVersion_parts v bump (Some M) (Some m) (Some p));
    rewrite Hsplit; simpl; by rewrite Hparse.
Qed.

Lemma calculateVersion_bumps_witness :
  calculateVersion "1.2.3" "minor" = "1.3.0".
Proof.
  apply (proj1 (proj2 (calculateVersion_bumps 1 2 3 "minor"
                         ltac:(lia) ltac:(lia) ltac:(lia)))).
Defined.

(** X25.  Only the leading numbers count: for numbers below [2^53], a
    pre-release suffix after the patch number does not change the result
    of any bump, and a version with fewer than three parts is bumped as
    if the missing parts were 0. *)
Theorem calculateVersion_tolerant (M m p : Z) (suffix bump : string) :
  0 <= M < 2 ^ 53 → 0 <= m < 2 ^ 53 → 0 <= p < 2 ^ 53 →
  let v := number_to_string M +:+ "." +:+ number_to_string m +:+ "."
           +:+ number_to_string p in
  calculateVersion (v +:+ "-" +:+ suffix) bump = calculateVersion v bump
  ∧ calculateVersion (number_to_string M +:+ "." +:+ number_to_string m) bump
    = calculateVersion
        (number_to_string M +:+ "." +:+ number_to_string m +:+ ".0") bump
  ∧ calculateVersion (number_to_string M) bump
    = calculateVersion (number_to_string M +:+ ".0.0") bump.
Proof.
  intros [HM _] [Hm _] [Hp _] v.
  assert (∀ n, 0 <= n → parseInt (number_to_string n) = Some n) as Hparse.
  { intros n Hn. rewrite <- (parseInt_number n "" Hn I).
    f_equal. generalize (number_to_string n). intros s.
    induction s as [|c s IH]; [done |]. rewrite string_app_cons. by f_equal. }
  assert (∀ v1 v2,
            (parseInt <$> AuthRoutes.split "." v1) !! 0%nat
            = (parseInt <$> AuthRoutes.split "." v2) !! 0%nat →
            default (Some 0) ((parseInt <$> AuthRoutes.split "." v1) !! 1%nat)
            = default (Some 0) ((parseInt <$> AuthRoutes.split "." v2) !! 1%nat) →
            default (Some 0) ((parseInt <$> AuthRoutes.split "." v1) !! 2%nat)
            = default (Some 0) ((parseInt <$> AuthRoutes.split "." v2) !! 2%nat) →
            calculateVersion v1 bump = calculateVersion v2 bump) as Hsame.
  { intros v1 v2 E0 E1 E2. unfold calculateVersion. cbv zeta.
    unfold number in *. by rewrite E0, E1, E2. }
  pose proof (number_to_string_lacks_dot M HM) as HdM.
  pose proof (number_to_string_lacks_dot m Hm) as Hdm.
  pose proof (number_to_string_lacks_dot p Hp) as Hdp.
  assert (number_to_string 0 = "0") as H0 by done.
  split; [| split].
  - destruct (split_app_other "." "-" (number_to_string p) suffix Hdp)
      as (w & ws & Hw); [done |].
    assert (AuthRoutes.split "." (v +:+ "-" +:+ suffix)
            = number_to_string M :: number_to_string m
              :: (number_to_string p +:+ String "-" w) :: ws) as Hs1.
    { subst v. rewrite !string_app_assoc, !string_app_single.
      by rewrite !split_app_sep, Hw by done. }
    assert (AuthRoutes.split "." v
            = [number_to_string M; number_to_string m; number_to_string p])
      as Hs2.
    { subst v. rewrite !string_app_single.
      by rewrite !split_app_sep, split_lacks by done. }
    apply Hsame; rewrite Hs1, Hs2; cbn; [done.. |].
    by rewrite Hparse, (parseInt_number p (String "-" w)) by done.
  - assert (AuthRoutes.split "."
              (number_to_string M +:+ "." +:+ number_to_string m)
            = [number_to_string M; number_to_string m]) as Hs1.
    { rewrite !string_app_single.
      by rewrite !split_app_sep, split_lacks by done. }
    assert (AuthRoutes.split "."
              (number_to_string M +:+ "." +:+ number_to_string m +:+ ".0")
            = [number_to_string M; number_to_string m; "0"]) as Hs2.
    { change ".0" with ("." +:+ "0"). rewrite !string_app_single.
      by rewrite !split_app_sep by done. }
    apply Hsame; rewrite Hs1, Hs2; cbn; done.
  - assert (AuthRoutes.split "." (number_to_string M) = [number_to_string M])
      as Hs1 by (by apply split_lacks).
    assert (AuthRoutes.split "." (number_to_string M +:+ ".0.0")
            = [number_to_string M; "0"; "0"]) as Hs2.
    { change ".0.0" with (String "." "0.0").
      by rewrite split_app_sep by done. }
    apply Hsame; rewrite Hs1, Hs2; cbn; done.
Qed.

Lemma calculateVersion_tolerant_witness :
  calculateVersion "1.2.3-beta.1" "patch" = calculateVersion "1.2.3" "patch".
Proof.
  apply (proj1 (calculateVersion_tolerant 1 2 3 "beta.1" "patch"
                  ltac:(lia) ltac:(lia) ltac:(lia))).
Defined.

End VersionFacts.
